(** * Coupled online linear regression (ml_notebooks, the SGD cells)

    A shallow embedding of the Python cells that define [basic_gradient],
    [coupled_gradient] and the two stochastic-gradient loops around them.

    Conventions of the embedding.
    - The code is written once, over the operations of an arithmetic
      (class [Arithmetic]).  [binary64] is numpy's float64; the rationals
      [Qc] and the integers [Z] are exact instances.  A theorem stated under
      [Scalar] uses the laws of a commutative ring: it is a theorem of exact
      arithmetic.  A theorem that needs no law, or only the laws of
      [Absorbing], holds on [binary64] as well.
    - A one-dimensional numpy array is a [list] of scalars.  Operations that
      numpy refuses on mismatched shapes return [Raise ValueError].
    - The notebook keeps [w], [grad], [err] and [cum_err] as global names;
      they are the fields of [state].  A name that has not been bound yet is
      [None], and reading it raises [NameError].
    - Everything printed goes to the [out] field, in order of printing.
    - [np.random] is an explicit generator state threaded through the loop. *)

From Stdlib Require Import List Arith Lia Bool ZArith QArith Qcanon Ring.
From Stdlib Require Import Floats.
Import ListNotations.

Set Implicit Arguments.
Local Open Scope nat_scope.

(** ** Scalars *)

(** What the code does with numbers: the literals [0] and [1], [+], [*],
    binary and unary [-], and [==]. *)
Class Arithmetic (F : Type) : Type := {
  zero : F;
  one : F;
  add : F -> F -> F;
  mul : F -> F -> F;
  sub : F -> F -> F;
  opp : F -> F;
  eqb : F -> F -> bool
}.

Declare Scope scalar_scope.
Delimit Scope scalar_scope with scalar.
Notation "0" := zero : scalar_scope.
Notation "1" := one : scalar_scope.
Notation "2" := (add one one) : scalar_scope.
Infix "+" := add : scalar_scope.
Infix "*" := mul : scalar_scope.
Infix "-" := sub : scalar_scope.
Notation "- x" := (opp x) : scalar_scope.
Infix "=?" := eqb : scalar_scope.

(** Exact arithmetic: the operations form a commutative ring and [==] decides
    equality. *)
Class Scalar (F : Type) `{Arithmetic F} : Type := {
  scalar_ring : ring_theory zero one add mul sub opp (@eq F);
  eqb_eq : forall a b : F, eqb a b = true <-> a = b
}.

Arguments Scalar F {_}.

(** Canonical rationals: every finite float64 value is one of them. *)
Definition Qc_eqb (a b : Qc) : bool := Qeq_bool (this a) (this b).

Lemma Qc_eqb_eq (a b : Qc) : Qc_eqb a b = true <-> a = b.
Proof.
  unfold Qc_eqb. rewrite Qeq_bool_iff. split.
  - apply Qc_is_canon.
  - intros ->. reflexivity.
Qed.

#[export] Instance Qc_Arithmetic : Arithmetic Qc := {
  zero := 0%Qc; one := 1%Qc;
  add := Qcplus; mul := Qcmult; sub := Qcminus; opp := Qcopp;
  eqb := Qc_eqb
}.

#[export] Instance Qc_Scalar : Scalar Qc := {
  scalar_ring := Qcrt;
  eqb_eq := Qc_eqb_eq
}.

#[export] Instance Z_Arithmetic : Arithmetic Z := {
  zero := 0%Z; one := 1%Z;
  add := Z.add; mul := Z.mul; sub := Z.sub; opp := Z.opp;
  eqb := Z.eqb
}.

#[export] Instance Z_Scalar : Scalar Z := {
  scalar_ring := InitialRing.Zth;
  eqb_eq := Z.eqb_eq
}.

(** numpy's float64: IEEE 754 binary64 with rounding to nearest, ties to
    even.  [==] is the comparison of the standard: a NaN differs from
    itself and the two zeros are equal. *)
#[export] Instance binary64 : Arithmetic float := {
  zero := 0%float; one := 1%float;
  add := PrimFloat.add; mul := PrimFloat.mul; sub := PrimFloat.sub;
  opp := PrimFloat.opp;
  eqb := PrimFloat.eqb
}.

(** What can be said of two float64 values without following the rounding:
    whether a value is a zero, whether it is finite (neither an infinity nor
    a NaN), and whether two values are the same up to the sign of a zero. *)
Definition zero64 (x : float) : bool :=
  match Prim2SF x with S754_zero _ => true | _ => false end.

Definition finite64 (x : float) : bool :=
  match Prim2SF x with
  | S754_zero _ | S754_finite _ _ _ => true
  | _ => false
  end.

Definition same64 (x y : float) : Prop :=
  x = y \/ (zero64 x = true /\ zero64 y = true).

(** The laws the comparison of two runs rests on: a sum with a zero is
    the same as the other term, a finite product with a zero is a zero, and
    a sum or product that is finite has finite operands.  [binary64]
    satisfies them with [same64] and [finite64]. *)
Class Absorbing (F : Type) `{Arithmetic F} : Type := {
  same : F -> F -> Prop;
  finite : F -> bool;
  same_refl : forall a, same a a;
  same_sym : forall a b, same a b -> same b a;
  same_trans : forall a b c, same a b -> same b c -> same a c;
  same_add : forall a a' b b',
    same a a' -> same b b' -> same (add a b) (add a' b');
  same_sub : forall a a' b b',
    same a a' -> same b b' -> same (sub a b) (sub a' b');
  same_mul : forall a a' b b',
    same a a' -> same b b' -> same (mul a b) (mul a' b');
  finite_add : forall a b,
    finite (add a b) = true -> finite a = true /\ finite b = true;
  finite_mul : forall a b,
    finite (mul a b) = true -> finite a = true /\ finite b = true;
  mul_zero_l : forall a b,
    same a zero -> finite (mul a b) = true -> same (mul a b) zero;
  mul_zero_r : forall a b,
    same b zero -> finite (mul a b) = true -> same (mul a b) zero;
  add_zero_r : forall a z, same z zero -> same (add a z) a
}.

Arguments Absorbing F {_}.

(** ** Exceptions *)

Inductive exn : Type :=
| ValueError          (* numpy: shapes not aligned / could not be broadcast *)
| NameError           (* a global name read before it was bound *)
| IndexError          (* an index past the end of an array *)
| ZeroDivisionError.  (* integer modulo by zero *)

Inductive result (A : Type) : Type :=
| Ok (a : A)
| Raise (e : exn).

Arguments Ok {A} a.
Arguments Raise {A} e.

Definition bind {A B : Type} (r : result A) (k : A -> result B) : result B :=
  match r with
  | Ok a => k a
  | Raise e => Raise e
  end.

Notation "x <- r ;; k" := (bind r (fun x => k))
  (at level 61, r at next level, right associativity).
Notation "' p <- r ;; k" := (bind r (fun x => let 'p := x in k))
  (at level 61, p pattern, r at next level, right associativity).

(** Reading a global name: [NameError] while it is unbound. *)
Definition lookup {A : Type} (v : option A) : result A :=
  match v with
  | Some a => Ok a
  | None => Raise NameError
  end.

(** [a[i]] on a one-dimensional array. *)
Definition index {A : Type} (a : list A) (i : nat) : result A :=
  match nth_error a i with
  | Some v => Ok v
  | None => Raise IndexError
  end.

(** [a % b] on non-negative Python integers. *)
Definition py_mod (a b : nat) : result nat :=
  match b with
  | O => Raise ZeroDivisionError
  | S _ => Ok (a mod b)
  end.

(** ** One-dimensional numpy arrays *)

Section Numpy.
Context {F : Type} `{Arithmetic F}.
Local Open Scope scalar_scope.

Local Abbreviation vec := (list F).

(** [np.zeros(n)] *)
Definition np_zeros (n : nat) : vec := repeat 0 n.

(** [a[:h]] and [a[h:]]; a bound past the end is clamped, as Python does. *)
Definition slice_to (h : nat) (a : vec) : vec := firstn h a.
Definition slice_from (h : nat) (a : vec) : vec := skipn h a.

(** Scalar times array and array times scalar. *)
Definition scale (s : F) (a : vec) : vec := map (fun v => s * v) a.
Definition scale_r (a : vec) (s : F) : vec := map (fun v => v * s) a.

Fixpoint zip_with (f : F -> F -> F) (a b : vec) : vec :=
  match a, b with
  | u :: a', v :: b' => f u v :: zip_with f a' b'
  | _, _ => []
  end.

(** Elementwise binary operation with numpy's broadcasting rule for two
    one-dimensional operands: equal lengths, or one operand of length 1. *)
Definition broadcast2 (f : F -> F -> F) (a b : vec) : result vec :=
  if (length a =? length b)%nat then Ok (zip_with f a b)
  else match a, b with
       | [u], _ => Ok (map (fun v => f u v) b)
       | _, [v] => Ok (map (fun u => f u v) a)
       | _, _ => Raise ValueError
       end.

Definition np_add : vec -> vec -> result vec := broadcast2 add.
Definition np_sub : vec -> vec -> result vec := broadcast2 sub.

(** [x.dot(w)] for one-dimensional [x] and [w]: no broadcasting. *)
Fixpoint dot_sum (x w : vec) : F :=
  match x, w with
  | u :: x', v :: w' => u * v + dot_sum x' w'
  | _, _ => 0
  end.

Definition np_dot (x w : vec) : result F :=
  if (length x =? length w)%nat then Ok (dot_sum x w) else Raise ValueError.

(** The value [v] broadcast to a one-dimensional shape of length [n], as a
    slice assignment or an in-place operation requires of its right side. *)
Definition broadcast_to (n : nat) (v : vec) : result vec :=
  if (length v =? n)%nat then Ok v
  else match v with
       | [u] => Ok (repeat u n)
       | _ => Raise ValueError
       end.

(** [a[:h] = v] and [a[h:] = v], returning the array after the assignment. *)
Definition assign_to (h : nat) (a v : vec) : result vec :=
  v' <- broadcast_to (length (slice_to h a)) v ;;
  Ok (v' ++ slice_from h a).

Definition assign_from (h : nat) (a v : vec) : result vec :=
  v' <- broadcast_to (length (slice_from h a)) v ;;
  Ok (slice_to h a ++ v').

(** [w += v] *)
Definition np_iadd (w v : vec) : result vec :=
  v' <- broadcast_to (length w) v ;;
  Ok (zip_with add w v').

End Numpy.

(** ** The two gradient functions *)

Section Gradients.
Context {F : Type} `{Arithmetic F}.
Local Abbreviation vec := (list F).
Local Open Scope scalar_scope.

(** [basic_gradient(x, w, y, reg)]: least-squares gradient of one model. *)
Definition basic_gradient (x w : vec) (y reg : F) : result (vec * F) :=
  pred <- np_dot x w ;;
  let err := pred - y in
  grad <- np_add (scale err x) (scale reg w) ;;
  Ok (grad, err).

(** The three zero-initialised arrays after the [if c==0: ... else: ...]
    block that fills one half of each. *)
Definition fill_terms (c : F) (k : nat) (x : vec) (err : F)
    (w_seg coupling : vec) : result (vec * vec * vec) :=
  let error_grad := np_zeros k in
  let reg_term := np_zeros k in
  let coupling_term := np_zeros k in
  if c =? 0 then
    error_grad <- assign_to (k / 2) error_grad (scale err x) ;;
    reg_term <- assign_to (k / 2) reg_term w_seg ;;
    coupling_term <- assign_to (k / 2) coupling_term coupling ;;
    Ok (error_grad, reg_term, coupling_term)
  else
    error_grad <- assign_from (k / 2) error_grad (scale err x) ;;
    reg_term <- assign_from (k / 2) reg_term w_seg ;;
    coupling_term <- assign_from (k / 2) coupling_term coupling ;;
    Ok (error_grad, reg_term, coupling_term).

(** [coupled_gradient(x, c, w, y, reg, coupling_reg)].  [k/2] is Python 2
    integer division. *)
Definition coupled_gradient (x : vec) (c : F) (w : vec)
    (y reg coupling_reg : F) : result (vec * F) :=
  let k := length w in
  let w_seg := if c =? 0 then slice_to (k / 2) w else slice_from (k / 2) w in
  pred <- np_dot x w_seg ;;
  diff <- np_sub (slice_to (k / 2) w) (slice_from (k / 2) w) ;;
  let coupling := scale_r diff (1 - 2 * c) in
  let err := pred - y in
  '(error_grad, reg_term, coupling_term) <-
     fill_terms c k x err w_seg coupling ;;
  s <- np_add error_grad (scale reg reg_term) ;;
  grad <- np_add s (scale coupling_reg coupling_term) ;;
  Ok (grad, err).

End Gradients.

(** ** Notebook state and the training loops *)

(** What the cells print, one constructor per [print] statement. *)
Inductive line (F : Type) : Type :=
| Line_index (i : nat)                   (* print i *)
| Line_features (x : list F)             (* print X[:,i] *)
| Line_task (c : F)                      (* print c[i] *)
| Line_report (iter : nat) (cum_err : F) (* print 'After iteration %i: %f' *).

Arguments Line_index {F} i.
Arguments Line_features {F} x.
Arguments Line_task {F} c.
Arguments Line_report {F} iter cum_err.

(** The global names the loops assign. *)
Record state (F : Type) : Type := State {
  st_w : list F;
  st_grad : option (list F);
  st_err : option F;
  st_cum_err : F;
  st_out : list (line F)
}.

Arguments State {F} _ _ _ _ _.

(** A [for] loop over a list whose body may raise. *)
Fixpoint for_each {S A : Type} (body : S -> A -> result S) (items : list A)
    (s : S) : result S :=
  match items with
  | [] => Ok s
  | i :: rest => s' <- body s i ;; for_each body rest s'
  end.

(** The cumulative errors among the printed lines, in order: the
    [epoch_losses] an importing caller would collect. *)
Fixpoint epoch_losses {F : Type} (out : list (line F)) : list F :=
  match out with
  | [] => []
  | Line_report _ e :: rest => e :: epoch_losses rest
  | _ :: rest => epoch_losses rest
  end.

(** The iteration numbers of the printed reports. *)
Fixpoint reported_iters {F : Type} (out : list (line F)) : list nat :=
  match out with
  | [] => []
  | Line_report it _ :: rest => it :: reported_iters rest
  | _ :: rest => reported_iters rest
  end.

Section Training.
Context {F : Type} `{Arithmetic F}.
Local Abbreviation vec := (list F).
(** [G] is the state of numpy's global random generator. *)
Context {G : Type}.
Local Open Scope scalar_scope.

(** The data arrays: [X] by columns ([X[:,i]] is [index X i]), the task
    identifiers [c] and the labels [y].  The columns of a numpy matrix all
    have one length; the model does not need that. *)
Variables (X : list (list F)) (c y : list F).
Variables (reg coupling_reg learning_rate : F).

(** [w += -learning_rate * grad ; cum_err += err**2], reading the globals
    [grad] and [err]. *)
Definition apply_update (st : state F) : result (state F) :=
  grad <- lookup (st_grad st) ;;
  w <- np_iadd (st_w st) (scale (- learning_rate) grad) ;;
  err <- lookup (st_err st) ;;
  Ok (State w (st_grad st) (st_err st) (st_cum_err st + err * err) (st_out st)).

(** Body of the inner loop of the independent estimations. *)
Definition basic_body (st : state F) (i : nat) : result (state F) :=
  x <- index X i ;;
  yi <- index y i ;;
  '(grad, err) <- basic_gradient x (st_w st) yi reg ;;
  apply_update
    (State (st_w st) (Some grad) (Some err) (st_cum_err st) (st_out st)).

(** The [try] block of the coupled loop, arguments evaluated left to
    right. *)
Definition try_block (st : state F) (i : nat) : result (vec * F) :=
  x <- index X i ;;
  ci <- index c i ;;
  yi <- index y i ;;
  coupled_gradient x ci (st_w st) yi reg coupling_reg.

(** The bare [except:] handler: three prints, each of which may itself
    raise. *)
Definition except_block (st : state F) (i : nat) : result (state F) :=
  x <- index X i ;;
  ci <- index c i ;;
  Ok (State (st_w st) (st_grad st) (st_err st) (st_cum_err st)
        (st_out st ++ [Line_index i; Line_features x; Line_task ci])).

(** Body of the inner loop of the coupled model. *)
Definition coupled_body (st : state F) (i : nat) : result (state F) :=
  st' <- match try_block st i with
         | Ok (grad, err) =>
             Ok (State (st_w st) (Some grad) (Some err) (st_cum_err st)
                   (st_out st))
         | Raise _ => except_block st i
         end ;;
  apply_update st'.

(** One pass of the outer loop.  [draw] produces the visiting order and
    the next generator state; [report_every] is the literal [10] of the
    notebook. *)
Definition epoch (body : state F -> nat -> result (state F))
    (draw : G -> list nat * G) (report_every : nat)
    (sg : state F * G) (iter : nat) : result (state F * G) :=
  let '(st, g) := sg in
  let st := State (st_w st) (st_grad st) (st_err st) 0 (st_out st) in
  let '(idx, g) := draw g in
  st <- for_each body idx st ;;
  r <- py_mod iter report_every ;;
  Ok (if (r =? 0)%nat
      then State (st_w st) (st_grad st) (st_err st) (st_cum_err st)
             (st_out st ++ [Line_report iter (st_cum_err st)])
      else st,
      g).

(** [for iter in range(num_iter): ...] *)
Definition sgd_loop (body : state F -> nat -> result (state F))
    (draw : G -> list nat * G) (report_every num_iter : nat)
    (sg : state F * G) : result (state F * G) :=
  for_each (epoch body draw report_every) (seq 0 num_iter) sg.

(** Visiting orders.  [in_order lo hi] is [range(lo, hi)] and leaves the
    generator alone; a permuting policy is any function of the generator
    state, [np.random.permutation(len(y))] in the notebook. *)
Definition in_order (lo hi : nat) (g : G) : list nat * G :=
  (seq lo (hi - lo), g).

(** The same order with the samples of task 1 (and of any other non-zero
    task identifier) left out. *)
Definition is_task0 (i : nat) : bool :=
  match nth_error c i with
  | Some ci => ci =? 0
  | None => false
  end.

Definition only_task0 (draw : G -> list nat * G) (g : G) : list nat * G :=
  let '(idx, g') := draw g in (filter is_task0 idx, g').

(** The coupled training loop from given initial weights, returning the
    final weights and the reported losses. *)
Definition train (draw : G -> list nat * G) (report_every num_iter : nat)
    (st0 : state F) (g : G) : result (vec * list F) :=
  '(st, _) <- sgd_loop coupled_body draw report_every num_iter (st0, g) ;;
  Ok (st_w st, epoch_losses (st_out st)).

(** The cells as the notebook runs them.  [gr] and [er] are whatever
    [grad] and [err] hold when the cell starts; [permutation] is
    [np.random.permutation]; [len(y)/2] is integer division. *)
Definition coupled_cell (K : nat) (permutation : nat -> G -> list nat * G)
    (num_iter : nat) (gr : option vec) (er : option F) (g : G)
    : result (vec * list F) :=
  train (permutation (length y)) 10 num_iter
    (State (np_zeros (2 * K)) gr er 0 []) g.

Definition estimate_w_0_cell (K num_iter : nat) (gr : option vec)
    (er : option F) (out : list (line F)) (g : G)
    : result (state F * G) :=
  sgd_loop basic_body (in_order 0 (length y / 2)) 10 num_iter
    (State (np_zeros K) gr er 0 out, g).

Definition estimate_w_1_cell (K num_iter : nat) (gr : option vec)
    (er : option F) (out : list (line F)) (g : G)
    : result (state F * G) :=
  sgd_loop basic_body (in_order (length y / 2) (length y)) 10 num_iter
    (State (np_zeros K) gr er 0 out, g).

End Training.

(** ** Vocabulary of the specification *)

Section SpecVocabulary.
Context {F : Type} `{Arithmetic F}.
Local Abbreviation vec := (list F).
Local Open Scope scalar_scope.

(** Segment 0 ([w0], indices [[0,K)]) and segment 1 ([w1], indices
    [[K,2K)]) of a weight vector. *)
Definition segment0 (K : nat) (w : vec) : vec := firstn K w.
Definition segment1 (K : nat) (w : vec) : vec := skipn K w.

(** The segment a task identifier selects: segment 0 for [c == 0], segment
    1 for anything else. *)
Definition active_segment (K : nat) (c : F) (w : vec) : vec :=
  if c =? 0 then segment0 K w else segment1 K w.

(** A [K]-vector placed in the segment of [c], zeros in the other one. *)
Definition place (K : nat) (c : F) (v : vec) : vec :=
  if c =? 0 then v ++ np_zeros K else np_zeros K ++ v.

Definition vsum (a b : vec) : vec := zip_with add a b.
Definition vdiff (a b : vec) : vec := zip_with sub a b.

(** The three terms of the gradient on the active segment, as the source
    computes them: [err*x], [reg * w_seg] and
    [coupling_reg * ((w0 - w1) * (1 - 2*c))]. *)
Definition error_part (K : nat) (x : vec) (c : F) (w : vec) (y : F) : vec :=
  scale (dot_sum x (active_segment K c w) - y) x.

Definition l2_part (K : nat) (c : F) (w : vec) (reg : F) : vec :=
  scale reg (active_segment K c w).

Definition coupling_part (K : nat) (c : F) (w : vec) (coupling_reg : F)
    : vec :=
  scale coupling_reg
    (scale_r (vdiff (segment0 K w) (segment1 K w)) (1 - 2 * c)).

Definition active_gradient (K : nat) (x : vec) (c : F) (w : vec)
    (y reg coupling_reg : F) : vec :=
  vsum (vsum (error_part K x c w y) (l2_part K c w reg))
       (coupling_part K c w coupling_reg).

(** The gradient as the code adds it up: three arrays of length [2K], each
    zero outside the segment of [c]. *)
Definition padded_gradient (K : nat) (x : vec) (c : F) (w : vec)
    (y reg coupling_reg : F) : vec :=
  vsum (vsum (place K c (error_part K x c w y))
             (scale reg (place K c (active_segment K c w))))
       (scale coupling_reg
          (place K c
             (scale_r (vdiff (segment0 K w) (segment1 K w)) (1 - 2 * c)))).

(** Segment 0 for [true], segment 1 for [false]. *)
Definition seg (t : bool) (K : nat) (w : vec) : vec :=
  if t then segment0 K w else segment1 K w.

(** What the [except] handler leaves behind for sample [i]. *)
Definition logged (st : state F) (i : nat) (x : vec) (ci : F) : state F :=
  State (st_w st) (st_grad st) (st_err st) (st_cum_err st)
    (st_out st ++ [Line_index i; Line_features x; Line_task ci]).

End SpecVocabulary.

(** The result of a loop with the generator state replaced. *)
Definition with_gen {A B : Type} (g : B) (r : result (A * B))
    : result (A * B) :=
  match r with
  | Ok (a, _) => Ok (a, g)
  | Raise e => Raise e
  end.

(** The rational [n/d] as a scalar. *)
Definition qc (n : Z) (d : positive) : Qc := Q2Qc (n # d).

(** ** The optimizer loop without effects

    A second, pure definition of the loop, laid out as section 4.2 of the
    specification words it (reset, one update and one squared error per
    sample, one cumulative error per epoch): no exceptions, no stale globals,
    no printing.  Its gradient is the closed form of [coupled_gradient] on
    well-shaped inputs.  It is compared with the embedding of the source
    below. *)

Section Reference.
Context {F : Type} `{Arithmetic F}.
Context {G : Type}.
Local Abbreviation vec := (list F).
Local Open Scope scalar_scope.

Variable K : nat.
Variables (X : list (list F)) (c y : list F).
Variables (reg coupling_reg learning_rate : F).

(** compute_gradient(sample, weights, reg, coupling_reg) *)
Definition compute_gradient (i : nat) (w : vec) : vec * F :=
  let x := nth i X [] in
  let ci := nth i c 0 in
  let yi := nth i y 0 in
  (place K ci (active_gradient K x ci w yi reg coupling_reg),
   dot_sum x (active_segment K ci w) - yi).

(** weights <- weights - learning_rate * gradient *)
Definition sgd_update (w gradient : vec) : vec :=
  vsum w (scale (- learning_rate) gradient).

(** One pass over the samples in the chosen order, accumulating the
    squared errors onto [cse]. *)
Fixpoint ref_pass (idx : list nat) (w : vec) (cse : F) : vec * F :=
  match idx with
  | [] => (w, cse)
  | i :: rest =>
      let '(gradient, error) := compute_gradient i w in
      ref_pass rest (sgd_update w gradient) (cse + error * error)
  end.

(** The epochs [iters], each starting from a cumulative error of zero;
    returns the weights, the generator and, for every epoch, its number
    and its cumulative squared error. *)
Fixpoint ref_epochs (draw : G -> list nat * G) (iters : list nat)
    (w : vec) (g : G) : vec * G * list (nat * F) :=
  match iters with
  | [] => (w, g, [])
  | it :: rest =>
      let '(idx, g') := draw g in
      let '(w', cse) := ref_pass idx w 0 in
      let '(w'', g'', log) := ref_epochs draw rest w' g' in
      (w'', g'', (it, cse) :: log)
  end.

(** The epochs whose number is a multiple of [report_every]. *)
Definition reported (report_every : nat) (log : list (nat * F))
    : list (nat * F) :=
  filter (fun e => (fst e mod report_every =? 0)%nat) log.

Definition ref_train (draw : G -> list nat * G)
    (report_every num_epochs : nat) (w : vec) (g : G) : vec * list F :=
  let '(w', _, log) := ref_epochs draw (seq 0 num_epochs) w g in
  (w', map snd (reported report_every log)).

(** The inputs the data model of the specification allows: [N] samples,
    every feature vector of length [K]. *)
Definition well_formed (N : nat) : Prop :=
  length X = N /\ length c = N /\ length y = N /\
  Forall (fun x => length x = K) X.

(** A visiting order that only names samples of the data set. *)
Definition in_range (draw : G -> list nat * G) (N : nat) : Prop :=
  forall g, Forall (fun i => (i < N)%nat) (fst (draw g)).

(** The report line of an epoch of the log. *)
Definition report_line (e : nat * F) : line F :=
  Line_report (fst e) (snd e).

End Reference.

(** ** The data cell and the remaining visiting policy *)

Section DataCell.
Context {F : Type} `{Arithmetic F}.
Context {G : Type}.
Local Abbreviation vec := (list F).
Local Open Scope scalar_scope.

(** [np.ones(n)] *)
Definition np_ones (n : nat) : vec := repeat 1 n.

(** [M.T.dot(w)] for the two-dimensional array [M] with [rows] rows whose
    columns are [cols]: one product per column; numpy refuses a [w] that
    has not [rows] entries. *)
Definition T_dot (rows : nat) (cols : list vec) (w : vec) : result vec :=
  if (rows =? length w)%nat
  then Ok (map (fun col => dot_sum col w) cols)
  else Raise ValueError.

(** What the data cell binds. *)
Record dataset : Type := Dataset {
  d_w_0 : vec;
  d_w_1 : vec;
  d_X : list vec;
  d_c : vec;
  d_y : vec
}.

(** The data cell.  [K], [N], [s] and [n_s] are its four constants; the
    values returned by its calls to [np.random.randn] are explicit:
    [r_w0] and [r_w1] for the two [randn(K)], [X] (by columns) for
    [randn(K,N)], [r_y0] and [r_y1] for the two [randn(N/2)].  The first
    assignment to [c] is overwritten before it is read and is left out. *)
Definition data_cell (K N : nat) (s n_s : F) (r_w0 r_w1 : vec)
    (X : list vec) (r_y0 r_y1 : vec) : result dataset :=
  let w_0 := r_w0 in
  w_1 <- np_add w_0 (scale_r r_w1 s) ;;
  let c := np_zeros (N / 2) ++ np_ones (N / 2) in
  p_0 <- T_dot K (firstn (N / 2) X) w_0 ;;
  y_0 <- np_add p_0 (scale_r r_y0 n_s) ;;
  p_1 <- T_dot K (skipn (N / 2) X) w_1 ;;
  y_1 <- np_add p_1 (scale_r r_y1 n_s) ;;
  Ok (Dataset w_0 w_1 X c (y_0 ++ y_1)).

(** The shapes [np.random.randn] gives the five draws. *)
Definition randn_shapes (K N : nat) (r_w0 r_w1 : vec) (X : list vec)
    (r_y0 r_y1 : vec) : Prop :=
  length r_w0 = K /\ length r_w1 = K /\
  length X = N /\ Forall (fun x => length x = K) X /\
  length r_y0 = N / 2 /\ length r_y1 = N / 2.

(** A visiting order with the samples of task 0 left out. *)
Definition only_other (c : vec) (draw : G -> list nat * G) (g : G)
    : list nat * G :=
  let '(idx, g') := draw g in
  (filter (fun i => negb (is_task0 c i)) idx, g').

(** The samples of task 0 for [true], all the others for [false]; and a
    visiting order restricted to them. *)
Definition task_is (c : vec) (t : bool) (i : nat) : bool :=
  if t then is_task0 c i else negb (is_task0 c i).

Definition only_task (c : vec) (t : bool) (draw : G -> list nat * G) (g : G)
    : list nat * G :=
  let '(idx, g') := draw g in (filter (task_is c t) idx, g').

(** What a run of a loop delivers: the final weights and the reported
    losses. *)
Definition delivered (r : result (state F * G)) : result (vec * list F) :=
  '(st, _) <- r ;; Ok (st_w st, epoch_losses (st_out st)).

End DataCell.

(** ** Facts about the array operations *)

Section ArrayFacts.
Context {F : Type} `{Scalar F}.
Local Abbreviation vec := (list F).
Local Open Scope scalar_scope.

Add Ring scalar_ring_here : scalar_ring.

Lemma eqb_refl (a : F) : (a =? a) = true.
Proof. apply eqb_eq. reflexivity. Qed.

Lemma eqb_false_neq (a b : F) : (a =? b) = false <-> a <> b.
Proof.
  rewrite <- eqb_eq. destruct (a =? b); split; congruence.
Qed.

(** In the ring where [1 = 0] every scalar is [0]. *)
Lemma trivial_ring (a : F) : 1 = 0 :> F -> a = 0.
Proof.
  intros E. transitivity (a * 1); [ring|]. rewrite E. ring.
Qed.

Lemma length_np_zeros (n : nat) : length (np_zeros n) = n.
Proof. apply repeat_length. Qed.

Lemma length_scale (s : F) (a : vec) : length (scale s a) = length a.
Proof. apply length_map. Qed.

Lemma length_scale_r (a : vec) (s : F) : length (scale_r a s) = length a.
Proof. apply length_map. Qed.

Lemma length_zip_with (f : F -> F -> F) (a b : vec) :
  length (zip_with f a b) = Nat.min (length a) (length b).
Proof.
  revert b. induction a as [|u a IH]; intros [|v b]; simpl; auto.
Qed.

Lemma zip_with_app (f : F -> F -> F) (a a' b b' : vec) :
  length a = length b ->
  zip_with f (a ++ a') (b ++ b') = zip_with f a b ++ zip_with f a' b'.
Proof.
  revert b. induction a as [|u a IH]; intros [|v b] E; simpl in *;
    try discriminate; auto.
  f_equal. apply IH. lia.
Qed.

Lemma np_zeros_add (m n : nat) : np_zeros (m + n) = np_zeros m ++ np_zeros n.
Proof. apply repeat_app. Qed.

Lemma scale_zeros (s : F) (n : nat) : scale s (np_zeros n) = np_zeros n.
Proof.
  unfold scale, np_zeros.
  induction n as [|n IH]; simpl; [reflexivity|].
  f_equal; [ring | exact IH].
Qed.

Lemma scale_app (s : F) (a b : vec) :
  scale s (a ++ b) = scale s a ++ scale s b.
Proof. apply map_app. Qed.

Lemma zip_add_zeros (n : nat) :
  zip_with add (np_zeros n) (np_zeros n) = np_zeros n.
Proof.
  unfold np_zeros.
  induction n as [|n IH]; simpl; [reflexivity|].
  f_equal; [ring | exact IH].
Qed.

Lemma broadcast2_same (f : F -> F -> F) (a b : vec) :
  length a = length b -> broadcast2 f a b = Ok (zip_with f a b).
Proof.
  intros E. unfold broadcast2. rewrite E, Nat.eqb_refl. reflexivity.
Qed.

Lemma broadcast_to_same (n : nat) (v : vec) :
  length v = n -> broadcast_to n v = Ok v.
Proof.
  intros E. unfold broadcast_to. rewrite E, Nat.eqb_refl. reflexivity.
Qed.

Lemma np_dot_same (x w : vec) :
  length x = length w -> np_dot x w = Ok (dot_sum x w).
Proof.
  intros E. unfold np_dot. rewrite E, Nat.eqb_refl. reflexivity.
Qed.

Lemma np_dot_mismatch (x w : vec) :
  length x <> length w -> np_dot x w = Raise ValueError.
Proof.
  intros E. unfold np_dot. apply Nat.eqb_neq in E. rewrite E. reflexivity.
Qed.

Lemma assign_to_zeros (K : nat) (v : vec) :
  length v = K ->
  assign_to K (np_zeros (K + K)) v = Ok (v ++ np_zeros K).
Proof.
  intros E. unfold assign_to, slice_to, slice_from.
  rewrite np_zeros_add, firstn_app, skipn_app, length_np_zeros, Nat.sub_diag.
  rewrite firstn_all2, skipn_all2 by (rewrite length_np_zeros; lia).
  simpl. rewrite app_nil_r, length_np_zeros, broadcast_to_same by assumption.
  reflexivity.
Qed.

Lemma assign_from_zeros (K : nat) (v : vec) :
  length v = K ->
  assign_from K (np_zeros (K + K)) v = Ok (np_zeros K ++ v).
Proof.
  intros E. unfold assign_from, slice_to, slice_from.
  rewrite np_zeros_add, firstn_app, skipn_app, length_np_zeros, Nat.sub_diag.
  rewrite firstn_all2, skipn_all2 by (rewrite length_np_zeros; lia).
  simpl. rewrite app_nil_r, length_np_zeros, broadcast_to_same by assumption.
  reflexivity.
Qed.

Lemma length_segment0 (K : nat) (w : vec) :
  length w = (K + K)%nat -> length (segment0 K w) = K.
Proof. intros E. unfold segment0. rewrite length_firstn. lia. Qed.

Lemma length_segment1 (K : nat) (w : vec) :
  length w = (K + K)%nat -> length (segment1 K w) = K.
Proof. intros E. unfold segment1. rewrite length_skipn. lia. Qed.

Lemma length_active_segment (K : nat) (c : F) (w : vec) :
  length w = (K + K)%nat -> length (active_segment K c w) = K.
Proof.
  intros E. unfold active_segment.
  destruct (c =? 0); auto using length_segment0, length_segment1.
Qed.

Lemma half_double (K : nat) : ((K + K) / 2 = K)%nat.
Proof.
  replace (K + K)%nat with (K * 2)%nat by lia. apply Nat.div_mul. lia.
Qed.

End ArrayFacts.

(** ** Closed form of [coupled_gradient] on well-shaped inputs *)

Section GradientFacts.
Context {F : Type} `{Scalar F}.
Local Abbreviation vec := (list F).
Local Open Scope scalar_scope.

Add Ring scalar_ring_grad : scalar_ring.

Lemma length_error_part K x c w y :
  length x = K -> length (error_part K x c w y) = K.
Proof. intros E. unfold error_part. now rewrite length_scale. Qed.

Lemma length_l2_part K c w reg :
  length w = (K + K)%nat -> length (l2_part K c w reg) = K.
Proof.
  intros E. unfold l2_part. now rewrite length_scale, length_active_segment.
Qed.

Lemma length_vdiff_segments K w :
  length w = (K + K)%nat ->
  length (vdiff (segment0 K w) (segment1 K w)) = K.
Proof.
  intros E. unfold vdiff.
  rewrite length_zip_with, length_segment0, length_segment1 by assumption.
  apply Nat.min_id.
Qed.

Lemma length_coupling_part K c w coupling_reg :
  length w = (K + K)%nat -> length (coupling_part K c w coupling_reg) = K.
Proof.
  intros E. unfold coupling_part.
  now rewrite length_scale, length_scale_r, length_vdiff_segments.
Qed.

Lemma length_active_gradient K x c w y reg coupling_reg :
  length x = K -> length w = (K + K)%nat ->
  length (active_gradient K x c w y reg coupling_reg) = K.
Proof.
  intros Ex Ew. unfold active_gradient, vsum.
  rewrite !length_zip_with, length_error_part, length_l2_part,
    length_coupling_part by assumption.
  lia.
Qed.

Lemma length_place K c v : length v = K -> length (place K c v) = (K + K)%nat.
Proof.
  intros E. unfold place.
  destruct (c =? 0); rewrite length_app, length_np_zeros; lia.
Qed.

(** Placing commutes with the elementwise sum and with scaling. *)
Lemma zip_add_place K c u v :
  length u = K -> length v = K ->
  zip_with add (place K c u) (place K c v) = place K c (zip_with add u v).
Proof.
  intros Eu Ev. unfold place. destruct (c =? 0).
  - rewrite zip_with_app by congruence. f_equal. apply zip_add_zeros.
  - rewrite zip_with_app by reflexivity. f_equal. apply zip_add_zeros.
Qed.

Lemma scale_place K c s v : scale s (place K c v) = place K c (scale s v).
Proof.
  unfold place. destruct (c =? 0); rewrite scale_app, scale_zeros; reflexivity.
Qed.

Lemma fill_terms_closed_form K x c err w_seg coupling :
  length x = K -> length w_seg = K -> length coupling = K ->
  fill_terms c (K + K) x err w_seg coupling =
  Ok (place K c (scale err x), place K c w_seg, place K c coupling).
Proof.
  intros Ex Es Ec. unfold fill_terms, place. rewrite half_double.
  destruct (c =? 0).
  - rewrite !assign_to_zeros by (rewrite ?length_scale; assumption).
    reflexivity.
  - rewrite !assign_from_zeros by (rewrite ?length_scale; assumption).
    reflexivity.
Qed.

Lemma coupled_gradient_closed_form K x c w y reg coupling_reg :
  length x = K -> length w = (K + K)%nat ->
  coupled_gradient x c w y reg coupling_reg =
  Ok (place K c (active_gradient K x c w y reg coupling_reg),
      dot_sum x (active_segment K c w) - y).
Proof.
  intros Ex Ew. unfold coupled_gradient. rewrite Ew, half_double.
  change (if c =? 0 then slice_to K w else slice_from K w)
    with (active_segment K c w).
  change (slice_to K w) with (segment0 K w).
  change (slice_from K w) with (segment1 K w).
  rewrite np_dot_same by (rewrite length_active_segment; congruence).
  cbn [bind]. unfold np_sub.
  rewrite broadcast2_same
    by (rewrite length_segment0, length_segment1; auto).
  cbn [bind].
  rewrite fill_terms_closed_form; auto using length_active_segment.
  2:{ rewrite length_scale_r. now apply length_vdiff_segments. }
  cbn [bind]. unfold np_add.
  assert (Ea : length (active_segment K c w) = K)
    by now apply length_active_segment.
  assert (Ed : length (vdiff (segment0 K w) (segment1 K w)) = K)
    by now apply length_vdiff_segments.
  rewrite scale_place, broadcast2_same
    by (rewrite !length_place; rewrite ?length_scale; auto).
  cbn [bind]. rewrite scale_place, zip_add_place
    by (rewrite length_scale; auto).
  rewrite broadcast2_same.
  2:{ rewrite !length_place; auto.
      - now rewrite length_scale, length_scale_r.
      - rewrite length_zip_with, !length_scale. lia. }
  rewrite zip_add_place.
  - reflexivity.
  - rewrite length_zip_with, !length_scale. lia.
  - now rewrite length_scale, length_scale_r.
Qed.

(** A feature vector of the wrong length makes [x.dot(w_seg)] raise. *)
Lemma coupled_gradient_bad_length K x c w y reg coupling_reg :
  length x <> K -> length w = (K + K)%nat ->
  coupled_gradient x c w y reg coupling_reg = Raise ValueError.
Proof.
  intros Ex Ew. unfold coupled_gradient. rewrite Ew, half_double.
  change (if c =? 0 then slice_to K w else slice_from K w)
    with (active_segment K c w).
  rewrite np_dot_mismatch by (rewrite length_active_segment; congruence).
  reflexivity.
Qed.

End GradientFacts.

(** ** The gradient as the code adds it up

    Nothing below uses a law of arithmetic: it holds on [binary64] as it
    does in exact arithmetic. *)

Section PaddedForm.
Context {F : Type} `{Arithmetic F}.
Local Abbreviation vec := (list F).
Local Open Scope scalar_scope.

Lemma coupled_gradient_padded K x c w y reg coupling_reg :
  length x = K -> length w = (K + K)%nat ->
  coupled_gradient x c w y reg coupling_reg =
  Ok (padded_gradient K x c w y reg coupling_reg,
      dot_sum x (active_segment K c w) - y).
Proof.
  intros Ex Ew. unfold coupled_gradient. rewrite Ew, half_double.
  change (if c =? 0 then slice_to K w else slice_from K w)
    with (active_segment K c w).
  change (slice_to K w) with (segment0 K w).
  change (slice_from K w) with (segment1 K w).
  assert (Ea : length (active_segment K c w) = K)
    by now apply length_active_segment.
  assert (Ed : length (vdiff (segment0 K w) (segment1 K w)) = K)
    by now apply length_vdiff_segments.
  rewrite np_dot_same by congruence.
  cbn [bind]. unfold np_sub.
  rewrite broadcast2_same
    by (rewrite length_segment0, length_segment1; auto).
  cbn [bind].
  rewrite fill_terms_closed_form; auto.
  2:{ now rewrite length_scale_r. }
  cbn [bind]. unfold np_add.
  rewrite broadcast2_same
    by (rewrite length_scale, !length_place; rewrite ?length_scale; auto).
  cbn [bind].
  rewrite broadcast2_same.
  - reflexivity.
  - rewrite length_zip_with, !length_scale, !length_place;
      rewrite ?length_scale, ?length_scale_r; auto. lia.
Qed.


Lemma skipn_zip_with (f : F -> F -> F) (n : nat) (a b : vec) :
  skipn n (zip_with f a b) = zip_with f (skipn n a) (skipn n b).
Proof.
  revert a b. induction n as [|n IH]; intros [|u a] [|v b]; simpl; auto.
  now destruct (skipn n a).
Qed.

Lemma firstn_zip_with (f : F -> F -> F) (n : nat) (a b : vec) :
  firstn n (zip_with f a b) = zip_with f (firstn n a) (firstn n b).
Proof.
  revert a b. induction n as [|n IH]; intros [|u a] [|v b]; simpl; auto.
  now rewrite IH.
Qed.

Lemma seg_zip_with (t : bool) (K : nat) (f : F -> F -> F) (a b : vec) :
  seg t K (zip_with f a b) = zip_with f (seg t K a) (seg t K b).
Proof.
  destruct t; [apply firstn_zip_with | apply skipn_zip_with].
Qed.

Lemma seg_scale (t : bool) (K : nat) (s : F) (a : vec) :
  seg t K (scale s a) = scale s (seg t K a).
Proof.
  destruct t; unfold seg, segment0, segment1, scale;
    [apply firstn_map | apply skipn_map].
Qed.

Lemma length_seg (t : bool) (K : nat) (w : vec) :
  length w = (K + K)%nat -> length (seg t K w) = K.
Proof.
  destruct t; [apply length_segment0 | apply length_segment1].
Qed.

Lemma seg_place (t : bool) (K : nat) (c : F) (v : vec) :
  length v = K ->
  seg t K (place K c v) = if Bool.eqb (c =? 0) t then v else np_zeros K.
Proof.
  intros E. unfold seg, segment0, segment1, place.
  destruct (c =? 0), t; cbn [Bool.eqb].
  - rewrite firstn_app, E, Nat.sub_diag, firstn_all2 by lia.
    apply app_nil_r.
  - rewrite skipn_app, E, Nat.sub_diag, skipn_all2 by lia. reflexivity.
  - rewrite firstn_app, length_np_zeros, Nat.sub_diag, firstn_all2
      by (rewrite length_np_zeros; lia).
    apply app_nil_r.
  - rewrite skipn_app, length_np_zeros, Nat.sub_diag, skipn_all2
      by (rewrite length_np_zeros; lia).
    reflexivity.
Qed.

Lemma active_segment_seg (t : bool) (K : nat) (c : F) (w : vec) :
  (c =? 0) = t -> active_segment K c w = seg t K w.
Proof. intros <-. reflexivity. Qed.

(** On the segment of the sample's task the gradient is that of
    [basic_gradient] on this segment, plus the coupling term. *)
Lemma seg_padded_active (t : bool) (K : nat) (x : vec) (c : F) (w : vec)
    (y reg coupling_reg : F) :
  length x = K -> length w = (K + K)%nat -> (c =? 0) = t ->
  seg t K (padded_gradient K x c w y reg coupling_reg) =
  vsum (vsum (scale (dot_sum x (seg t K w) - y) x) (scale reg (seg t K w)))
       (scale coupling_reg
          (scale_r (vdiff (segment0 K w) (segment1 K w)) (1 - 2 * c))).
Proof.
  intros Ex Ew Et. unfold padded_gradient, vsum, error_part.
  rewrite !(active_segment_seg K c w Et).
  rewrite !seg_zip_with, !seg_scale, !seg_place;
    rewrite ?length_scale, ?length_scale_r, ?length_seg;
    auto using length_vdiff_segments.
  rewrite Et, Bool.eqb_reflx. reflexivity.
Qed.

(** On the other segment it is a sum of products with zero. *)
Lemma seg_padded_inactive (t : bool) (K : nat) (x : vec) (c : F) (w : vec)
    (y reg coupling_reg : F) :
  length x = K -> length w = (K + K)%nat -> (c =? 0) = negb t ->
  seg t K (padded_gradient K x c w y reg coupling_reg) =
  vsum (vsum (np_zeros K) (scale reg (np_zeros K)))
       (scale coupling_reg (np_zeros K)).
Proof.
  intros Ex Ew Et. unfold padded_gradient, vsum, error_part.
  rewrite !seg_zip_with, !seg_scale, !seg_place;
    rewrite ?length_scale, ?length_scale_r, ?length_active_segment;
    auto using length_vdiff_segments.
  rewrite Et. destruct t; reflexivity.
Qed.

(** X4.  [coupled_gradient] is [basic_gradient] on the segment of the
    sample's task with the coupling term added: it returns the same error,
    the gradient it puts on that segment is the gradient of
    [basic_gradient] plus [coupling_reg * ((w0 - w1) * (1 - 2*c))], and it
    raises exactly when [basic_gradient] does, the same exception. *)
Theorem coupled_gradient_extends_basic (K : nat) (x : vec) (c : F)
    (w : vec) (y reg coupling_reg : F) :
  length w = (K + K)%nat ->
  match basic_gradient x (active_segment K c w) y reg with
  | Ok (g, e) =>
      exists grad,
        coupled_gradient x c w y reg coupling_reg = Ok (grad, e) /\
        length grad = (K + K)%nat /\
        active_segment K c grad =
          vsum g (scale coupling_reg
                    (scale_r (vdiff (segment0 K w) (segment1 K w))
                       (1 - 2 * c)))
  | Raise ex => coupled_gradient x c w y reg coupling_reg = Raise ex
  end.
Proof.
  intros Ew.
  assert (La : length (active_segment K c w) = K)
    by (apply length_active_segment; assumption).
  unfold basic_gradient.
  destruct (Nat.eq_dec (length x) K) as [Ex|Ex].
  - rewrite np_dot_same by congruence. cbn [bind]. unfold np_add.
    rewrite broadcast2_same by (rewrite !length_scale; congruence).
    cbn [bind]. eexists.
    split; [exact (coupled_gradient_padded x c w y reg coupling_reg Ex Ew)|].
    split.
    + unfold padded_gradient, vsum, error_part.
      rewrite !length_zip_with, !length_scale, !length_place;
        rewrite ?length_scale, ?length_scale_r;
        auto using length_vdiff_segments.
      lia.
    + rewrite (active_segment_seg K c (padded_gradient _ _ _ _ _ _ _)
                 (eq_refl (c =? 0))).
      rewrite (seg_padded_active x c w y reg coupling_reg Ex Ew eq_refl).
      rewrite (active_segment_seg K c w (eq_refl (c =? 0))).
      reflexivity.
  - rewrite np_dot_mismatch by congruence. cbn [bind].
    exact (coupled_gradient_bad_length x c w y reg coupling_reg Ex Ew).
Qed.

End PaddedForm.

(** ** The gradient computer: claims about one call *)

Section GradientClaims.
Context {F : Type} `{Scalar F}.
Local Abbreviation vec := (list F).
Local Open Scope scalar_scope.

Add Ring scalar_ring_claims : scalar_ring.

Lemma trivial_ring_vec (a b : vec) :
  1 = 0 :> F -> length a = length b -> a = b.
Proof.
  intros E. revert b.
  induction a as [|u a IH]; intros [|v b] L; simpl in L; try discriminate.
  - reflexivity.
  - f_equal.
    + rewrite (trivial_ring u E), (trivial_ring v E). reflexivity.
    + apply IH. lia.
Qed.

Lemma scale_r_ext (d : vec) (s t : F) : s = t -> scale_r d s = scale_r d t.
Proof. intros ->. reflexivity. Qed.

(** C1.  For features of length [K] and weights of length [2K], any [y],
    [reg] and [coupling_reg] (non-negative or not): with [c = 0] the call
    returns [err = dot(x, w0) - y] and the elementwise sum of [err*x],
    [reg*w0] and [coupling_reg*((w0 - w1)*(+1))], each placed on segment 0
    and zero on segment 1; with [c = 1] it returns [err = dot(x, w1) - y]
    and the sum of [err*x], [reg*w1] and [coupling_reg*((w0 - w1)*(-1))],
    each placed on segment 1 and zero on segment 0. *)
Theorem coupled_gradient_three_terms (K : nat) (x w : vec)
    (y reg coupling_reg : F) :
  length x = K -> length w = (K + K)%nat ->
  let w0 := segment0 K w in
  let w1 := segment1 K w in
  let err0 := dot_sum x w0 - y in
  let err1 := dot_sum x w1 - y in
  coupled_gradient x 0 w y reg coupling_reg =
    Ok (vsum (vsum (scale err0 x ++ np_zeros K) (scale reg w0 ++ np_zeros K))
             (scale coupling_reg (scale_r (vdiff w0 w1) 1) ++ np_zeros K),
        err0)
  /\
  coupled_gradient x 1 w y reg coupling_reg =
    Ok (vsum (vsum (np_zeros K ++ scale err1 x) (np_zeros K ++ scale reg w1))
             (np_zeros K ++ scale coupling_reg (scale_r (vdiff w0 w1) (- (1)))),
        err1).
Proof.
  intros Ex Ew w0 w1 err0 err1.
  assert (L0 : length w0 = K) by now apply length_segment0.
  assert (L1 : length w1 = K) by now apply length_segment1.
  assert (Ld : length (vdiff w0 w1) = K) by now apply length_vdiff_segments.
  split.
  - rewrite (coupled_gradient_closed_form x 0 w y reg coupling_reg Ex Ew).
    unfold active_gradient, error_part, l2_part, coupling_part,
      active_segment, place.
    rewrite eqb_refl. fold w0 w1 err0.
    rewrite (scale_r_ext (vdiff w0 w1) (s := 1 - 2 * 0) (t := 1)) by ring.
    unfold vsum. rewrite !zip_with_app, !zip_add_zeros.
    + reflexivity.
    + rewrite length_zip_with, !length_scale, length_scale_r. lia.
    + rewrite !length_scale. lia.
  - rewrite (coupled_gradient_closed_form x 1 w y reg coupling_reg Ex Ew).
    unfold active_gradient, error_part, l2_part, coupling_part,
      active_segment, place.
    destruct (1 =? 0) eqn:E10.
    + (* the ring where 1 = 0 *)
      apply eqb_eq in E10. f_equal. f_equal.
      * apply trivial_ring_vec; [assumption|].
        fold w0 w1. unfold vsum.
        rewrite ?length_app, ?length_zip_with, ?length_app, ?length_scale,
          ?length_scale_r, ?length_np_zeros, ?L0, ?L1, ?Ld, ?Ex.
        lia.
      * rewrite (trivial_ring (dot_sum x (segment0 K w) - y) E10).
        symmetry. apply trivial_ring. assumption.
    + fold w0 w1 err1.
      rewrite (scale_r_ext (vdiff w0 w1) (s := 1 - 2 * 1) (t := - (1))) by ring.
      unfold vsum.
      rewrite zip_with_app, zip_add_zeros by reflexivity.
      rewrite zip_with_app, zip_add_zeros by reflexivity.
      reflexivity.
Qed.

(** C3.  For features of length [K] and weights of length [2K] the call
    returns a gradient of length [2K] that is exactly zero at every index
    of [[K,2K)] when the task is 0 and at every index of [[0,K)] when the
    task is 1. *)
Theorem coupled_gradient_segment_sparse (K : nat) (x : vec) (c : F)
    (w : vec) (y reg coupling_reg : F) :
  length x = K -> length w = (K + K)%nat ->
  exists grad err,
    coupled_gradient x c w y reg coupling_reg = Ok (grad, err) /\
    length grad = (K + K)%nat /\
    (c = 0 -> forall j, (K <= j < K + K)%nat -> nth_error grad j = Some 0) /\
    (c = 1 -> forall j, (j < K)%nat -> nth_error grad j = Some 0).
Proof.
  intros Ex Ew.
  pose proof (length_active_gradient x c w y reg coupling_reg Ex Ew) as La.
  exists (place K c (active_gradient K x c w y reg coupling_reg)),
    (dot_sum x (active_segment K c w) - y).
  split; [exact (coupled_gradient_closed_form x c w y reg coupling_reg Ex Ew)|].
  split; [exact (length_place c _ La)|].
  unfold place. split.
  - intros -> j Hj. rewrite eqb_refl.
    rewrite nth_error_app2 by lia. rewrite La.
    apply nth_error_repeat. lia.
  - intros -> j Hj. destruct (1 =? 0) eqn:E10.
    + apply eqb_eq in E10.
      destruct (nth_error
        (active_gradient K x 1 w y reg coupling_reg ++ np_zeros K) j)
        as [v|] eqn:Ej.
      * f_equal. now apply trivial_ring.
      * apply nth_error_None in Ej.
        rewrite length_app, La, length_np_zeros in Ej. lia.
    + rewrite nth_error_app1 by (rewrite length_np_zeros; lia).
      apply nth_error_repeat. lia.
Qed.

(** C10.  A task identifier other than 0 raises nothing: the gradient goes
    to segment 1, computed from [w1], with the coupling term scaled by
    [1 - 2*c]; for [c = 2] that term is [(-3 * coupling_reg) * (w0 - w1)]. *)
Theorem coupled_gradient_nonzero_task (K : nat) (x : vec) (c : F)
    (w : vec) (y reg coupling_reg : F) :
  length x = K -> length w = (K + K)%nat ->
  let w0 := segment0 K w in
  let w1 := segment1 K w in
  let err := dot_sum x w1 - y in
  (c <> 0 ->
   coupled_gradient x c w y reg coupling_reg =
     Ok (np_zeros K ++
         vsum (vsum (scale err x) (scale reg w1))
              (scale coupling_reg (scale_r (vdiff w0 w1) (1 - 2 * c))),
         err))
  /\
  (2 <> 0 :> F ->
   coupled_gradient x 2 w y reg coupling_reg =
     Ok (np_zeros K ++
         vsum (vsum (scale err x) (scale reg w1))
              (scale (- (1 + 2) * coupling_reg) (vdiff w0 w1)),
         err)).
Proof.
  intros Ex Ew w0 w1 err.
  assert (Hne : forall c', c' <> 0 ->
    coupled_gradient x c' w y reg coupling_reg =
     Ok (np_zeros K ++
         vsum (vsum (scale err x) (scale reg w1))
              (scale coupling_reg (scale_r (vdiff w0 w1) (1 - 2 * c'))),
         err)).
  { intros c' Hc. apply eqb_false_neq in Hc.
    rewrite (coupled_gradient_closed_form x c' w y reg coupling_reg Ex Ew).
    unfold active_gradient, error_part, l2_part, coupling_part,
      active_segment, place.
    rewrite Hc. reflexivity. }
  split; [apply Hne|].
  intros H2. rewrite (Hne _ H2). do 4 f_equal.
  unfold scale, scale_r. rewrite map_map. apply map_ext.
  intros d. ring.
Qed.

End GradientClaims.


(** ** Facts about the loops *)

Lemma index_in_range {A : Type} (a : list A) (i : nat) (d : A) :
  i < length a -> index a i = Ok (nth i a d).
Proof.
  intros Hi. unfold index. now rewrite (nth_error_nth' a d Hi).
Qed.

Section LoopFacts.
Context {F : Type} `{Scalar F}.
Context {G : Type}.
Local Abbreviation vec := (list F).
Local Open Scope scalar_scope.

Add Ring scalar_ring_loop : scalar_ring.

Variable K : nat.
Variables (X : list (list F)) (c y : list F).
Variables (reg coupling_reg learning_rate : F).

Local Abbreviation body := (coupled_body X c y reg coupling_reg learning_rate).
Local Abbreviation gradient_at := (compute_gradient K X c y reg coupling_reg).
Local Abbreviation pass := (ref_pass K X c y reg coupling_reg learning_rate).
Local Abbreviation epochs :=
  (ref_epochs (G := G) K X c y reg coupling_reg learning_rate).
Local Abbreviation wf := (well_formed K X c y).

Lemma np_iadd_same (w v : vec) :
  length v = length w -> np_iadd w v = Ok (vsum w v).
Proof.
  intros E. unfold np_iadd. now rewrite broadcast_to_same.
Qed.

Lemma wf_features (N i : nat) :
  wf N -> (i < N)%nat -> length (nth i X []) = K.
Proof.
  intros (EX & _ & _ & HX) Hi.
  rewrite Forall_forall in HX. apply HX, nth_In. lia.
Qed.

Lemma length_gradient_at (N i : nat) (w : vec) :
  wf N -> (i < N)%nat -> length w = (K + K)%nat ->
  length (fst (gradient_at i w)) = (K + K)%nat.
Proof.
  intros Hwf Hi Ew. unfold compute_gradient. cbn [fst].
  apply length_place, length_active_gradient; eauto using wf_features.
Qed.

Lemma length_sgd_update (w gradient : vec) :
  length w = (K + K)%nat -> length gradient = (K + K)%nat ->
  length (sgd_update learning_rate w gradient) = (K + K)%nat.
Proof.
  intros Ew Eg. unfold sgd_update, vsum.
  rewrite length_zip_with, length_scale. lia.
Qed.

(** On a sample of the data set the [try] block succeeds and the body is
    one step of the pure loop. *)
Lemma coupled_body_well_formed (N i : nat) (st : state F) :
  wf N -> (i < N)%nat -> length (st_w st) = (K + K)%nat ->
  body st i =
  Ok (State (sgd_update learning_rate (st_w st) (fst (gradient_at i (st_w st))))
        (Some (fst (gradient_at i (st_w st))))
        (Some (snd (gradient_at i (st_w st))))
        (st_cum_err st +
         snd (gradient_at i (st_w st)) * snd (gradient_at i (st_w st)))
        (st_out st)).
Proof.
  intros Hwf Hi Ew.
  pose proof (length_gradient_at (st_w st) Hwf Hi Ew) as Lg.
  pose proof (wf_features Hwf Hi) as Lx.
  destruct Hwf as (EX & Ec & Ey & _).
  unfold coupled_body, try_block.
  rewrite (index_in_range X []), (index_in_range c 0), (index_in_range y 0)
    by lia.
  cbn [bind].
  rewrite (coupled_gradient_closed_form _ _ _ _ _ _ Lx Ew).
  cbn [bind]. unfold apply_update. cbn [st_grad st_w st_err lookup bind].
  rewrite np_iadd_same; [reflexivity|].
  rewrite length_scale. rewrite Ew. exact Lg.
Qed.

Lemma for_each_body_well_formed (N : nat) (idx : list nat) :
  wf N -> Forall (fun i => (i < N)%nat) idx ->
  forall st, length (st_w st) = (K + K)%nat ->
  exists gr er,
    for_each body idx st =
    Ok (State (fst (pass idx (st_w st) (st_cum_err st))) gr er
          (snd (pass idx (st_w st) (st_cum_err st))) (st_out st)) /\
    length (fst (pass idx (st_w st) (st_cum_err st))) = (K + K)%nat.
Proof.
  intros Hwf Hidx. induction Hidx as [|i idx Hi _ IH]; intros st Ew.
  - exists (st_grad st), (st_err st). destruct st; simpl in *. auto.
  - cbn [for_each]. rewrite (coupled_body_well_formed st Hwf Hi Ew).
    cbn [bind].
    match goal with |- context [for_each _ _ ?s] => specialize (IH s) end.
    cbn [st_w st_cum_err st_out] in IH.
    destruct IH as (gr & er & E & L).
    { apply length_sgd_update; [assumption|].
      now apply (length_gradient_at (N := N)). }
    exists gr, er. rewrite E. cbn [ref_pass].
    destruct (gradient_at i (st_w st)) as [gradient error] eqn:Eg.
    cbn [fst snd] in *. auto.
Qed.

Lemma length_pass (N : nat) (idx : list nat) :
  wf N -> Forall (fun i => (i < N)%nat) idx ->
  forall w cse, length w = (K + K)%nat ->
  length (fst (pass idx w cse)) = (K + K)%nat.
Proof.
  intros Hwf Hidx w cse Ew.
  destruct (for_each_body_well_formed Hwf Hidx (State w None None cse []) Ew)
    as (_ & _ & _ & L).
  exact L.
Qed.

Lemma epoch_well_formed (N : nat) (draw : G -> list nat * G)
    (report_every : nat) (st : state F) (g : G) (it : nat) :
  wf N -> in_range draw N -> report_every <> 0%nat ->
  length (st_w st) = (K + K)%nat ->
  exists gr er,
    epoch body draw report_every (st, g) it =
    Ok (State (fst (pass (fst (draw g)) (st_w st) 0)) gr er
          (snd (pass (fst (draw g)) (st_w st) 0))
          (st_out st ++
           map report_line
             (reported report_every
                [(it, snd (pass (fst (draw g)) (st_w st) 0))])),
        snd (draw g)).
Proof.
  intros Hwf Hdraw Hre Ew. unfold epoch.
  specialize (Hdraw g). destruct (draw g) as [idx g']. cbn [fst snd] in *.
  destruct (for_each_body_well_formed Hwf Hdraw
              (State (st_w st) (st_grad st) (st_err st) 0 (st_out st)) Ew)
    as (gr & er & E & _).
  cbn [st_w st_cum_err st_out] in E. rewrite E. cbn [bind].
  destruct report_every as [|r]; [congruence|]. cbn [py_mod bind].
  exists gr, er. unfold reported. cbn [filter fst snd].
  cbn [st_w st_grad st_err st_cum_err st_out].
  destruct (it mod S r =? 0)%nat; cbn [map]; [reflexivity|].
  now rewrite app_nil_r.
Qed.

(** The loop of the source over the epochs [iters] computes what the pure
    loop computes, and prints one report for each epoch whose number is a
    multiple of [report_every]. *)
Lemma for_each_epoch_well_formed (N : nat) (draw : G -> list nat * G)
    (report_every : nat) (iters : list nat) :
  wf N -> in_range draw N -> report_every <> 0%nat ->
  forall (st : state F) (g : G), length (st_w st) = (K + K)%nat ->
  exists gr er cse,
    for_each (epoch body draw report_every) iters (st, g) =
    Ok (State (fst (fst (epochs draw iters (st_w st) g))) gr er cse
          (st_out st ++
           map report_line
             (reported report_every (snd (epochs draw iters (st_w st) g)))),
        snd (fst (epochs draw iters (st_w st) g))) /\
    length (fst (fst (epochs draw iters (st_w st) g))) = (K + K)%nat.
Proof.
  intros Hwf Hdraw Hre.
  induction iters as [|it iters IH]; intros st g Ew.
  - exists (st_grad st), (st_err st), (st_cum_err st).
    cbn. rewrite app_nil_r. destruct st; auto.
  - cbn [for_each].
    destruct (epoch_well_formed st g it Hwf Hdraw Hre Ew) as (gr & er & E).
    rewrite E. cbn [bind]. clear E.
    pose proof (length_pass Hwf (Hdraw g) (st_w st) 0 Ew) as L.
    cbn [ref_epochs].
    destruct (draw g) as [idx g'] eqn:Ed. cbn [fst snd] in *.
    destruct (pass idx (st_w st) 0) as [w' cse'] eqn:Ep. cbn [fst snd] in *.
    match goal with |- context [for_each _ _ (?s, _)] =>
      destruct (IH s g' L) as (gr' & er' & cse & E' & L') end.
    cbn [st_w st_out] in E', L'. rewrite E'.
    destruct (epochs draw iters w' g') as [[w'' g''] log] eqn:Ee.
    cbn [fst snd] in *.
    exists gr', er', cse. split; [|assumption].
    rewrite <- app_assoc, <- map_app. unfold reported.
    rewrite <- filter_app. reflexivity.
Qed.

Lemma epochs_log_iters (draw : G -> list nat * G) (iters : list nat)
    (w : vec) (g : G) :
  map fst (snd (epochs draw iters w g)) = iters.
Proof.
  revert w g. induction iters as [|it iters IH]; intros w g; [reflexivity|].
  cbn [ref_epochs]. destruct (draw g) as [idx g'].
  destruct (pass idx w 0) as [w' cse].
  specialize (IH w' g').
  destruct (epochs draw iters w' g') as [[w'' g''] log].
  cbn [fst snd map] in *. now rewrite IH.
Qed.

End LoopFacts.

(** ** A visiting order that does not consult the generator *)

Section FixedOrder.
Context {F : Type} `{Arithmetic F}.
Context {G : Type}.

Variable body : state F -> nat -> result (state F).
Variables lo hi report_every : nat.

Lemma in_order_passes_generator (iters : list nat) :
  forall (st : state F) (g g' : G),
  for_each (epoch body (in_order lo hi) report_every) iters (st, g) =
  with_gen g
    (for_each (epoch body (in_order lo hi) report_every) iters (st, g')).
Proof.
  induction iters as [|it iters IH]; intros st g g'; [reflexivity|].
  cbn [for_each]. unfold epoch at 1 3. unfold in_order at 1 3.
  destruct (for_each body (seq lo (hi - lo)) _) as [st'|e]; [|reflexivity].
  cbn [bind]. destruct (py_mod it report_every) as [r|e]; [|reflexivity].
  cbn [bind]. apply IH.
Qed.

End FixedOrder.

(** ** The optimizer loop: claims *)

Section LoopClaims.
Context {F : Type} `{Arithmetic F}.
Context {G : Type}.
Local Abbreviation vec := (list F).
Local Open Scope scalar_scope.

Variables (X : list (list F)) (c y : list F).
Variables (reg coupling_reg learning_rate : F).

Local Abbreviation body := (coupled_body X c y reg coupling_reg learning_rate).

Lemma coupled_body_on_failure (st : state F) (i : nat) (x : vec) (ci : F)
    (e : exn) :
  index X i = Ok x -> index c i = Ok ci ->
  try_block X c y reg coupling_reg st i = Raise e ->
  body st i = apply_update learning_rate (logged st i x ci).
Proof.
  intros EX Ec Et. unfold coupled_body, except_block.
  rewrite Et, EX, Ec. reflexivity.
Qed.

(** C5.  When the gradient computation for sample [i] raises, the
    exception is caught and the index, the features and the task
    identifier are printed; the update statements then run on the values
    of [grad] and [err] left by an earlier iteration (here [g] and [er]),
    and the loop goes on with the next sample.  If [grad] was never bound
    the update raises [NameError]. *)
Theorem coupled_body_reuses_stale_gradient (st : state F) (i : nat)
    (x : vec) (ci : F) (e : exn) :
  index X i = Ok x -> index c i = Ok ci ->
  try_block X c y reg coupling_reg st i = Raise e ->
  (forall (g : vec) (er : F) (rest : list nat),
     st_grad st = Some g -> st_err st = Some er ->
     length g = length (st_w st) ->
     let st' :=
       State (vsum (st_w st) (scale (- learning_rate) g)) (Some g) (Some er)
         (st_cum_err st + er * er)
         (st_out st ++ [Line_index i; Line_features x; Line_task ci]) in
     body st i = Ok st' /\
     for_each body (i :: rest) st = for_each body rest st')
  /\
  (st_grad st = None -> body st i = Raise NameError).
Proof.
  intros EX Ec Et.
  pose proof (coupled_body_on_failure st i EX Ec Et) as Eb.
  split.
  - intros g er rest Eg Eer Lg st'.
    assert (E : body st i = Ok st').
    { rewrite Eb. unfold apply_update, logged.
      cbn [st_grad st_w st_err st_cum_err st_out].
      rewrite Eg, Eer. cbn [lookup bind].
      rewrite np_iadd_same by (rewrite length_scale; exact Lg).
      reflexivity. }
    split; [exact E|]. cbn [for_each]. rewrite E. reflexivity.
  - intros Eg. rewrite Eb. unfold apply_update, logged.
    cbn [st_grad]. rewrite Eg. reflexivity.
Qed.

(** C4, as the code has it.  With weights of length [2K] the gradient
    computation raises exactly when the feature vector does not have
    length [K], and what it raises is numpy's [ValueError]; no value of the
    task identifier makes it raise. *)
Theorem coupled_gradient_raises_iff_bad_length (K : nat) (x : vec) (ci : F)
    (w : vec) (yi : F) :
  length w = (K + K)%nat ->
  ((exists e, coupled_gradient x ci w yi reg coupling_reg = Raise e) <->
   length x <> K) /\
  (length x <> K ->
   coupled_gradient x ci w yi reg coupling_reg = Raise ValueError).
Proof.
  intros Ew. split.
  - split.
    + intros [e E] Ex.
      rewrite (coupled_gradient_padded x ci w yi reg coupling_reg Ex Ew)
        in E.
      discriminate.
    + intros Ex. exists ValueError.
      now apply (coupled_gradient_bad_length x ci w yi reg coupling_reg Ex).
  - intros Ex.
    now apply (coupled_gradient_bad_length x ci w yi reg coupling_reg Ex).
Qed.

(** C8.  With [num_iter = 0] no epoch runs: the weights are the initial
    weights, nothing is reported, no order is drawn, and the whole state
    is untouched; the notebook's cell would end with its zero weights. *)
Theorem train_zero_epochs (draw : G -> list nat * G) (report_every : nat)
    (w0 : vec) (gr : option vec) (er : option F) (ce : F) (g : G)
    (K : nat) (permutation : nat -> G -> list nat * G) :
  train X c y reg coupling_reg learning_rate draw report_every 0
    (State w0 gr er ce []) g = Ok (w0, [])
  /\
  sgd_loop body draw report_every 0 (State w0 gr er ce [], g) =
  Ok (State w0 gr er ce [], g)
  /\
  coupled_cell X c y reg coupling_reg learning_rate K permutation 0 gr er g =
  Ok (np_zeros (2 * K), []).
Proof.
  repeat split; reflexivity.
Qed.

End LoopClaims.

Section RefinementClaims.
Context {F : Type} `{Scalar F}.
Context {G : Type}.
Local Abbreviation vec := (list F).
Local Open Scope scalar_scope.

Variable K : nat.
Variables (X : list (list F)) (c y : list F).
Variables (reg learning_rate : F).

Lemma epoch_losses_app (a b : list (line F)) :
  epoch_losses (a ++ b) = epoch_losses a ++ epoch_losses b.
Proof.
  induction a as [|[i|x|t|it e] a IH]; simpl; auto. now rewrite IH.
Qed.

Lemma epoch_losses_reports (log : list (nat * F)) :
  epoch_losses (map report_line log) = map snd log.
Proof.
  induction log as [|[it e] log IH]; simpl; [reflexivity|]. now rewrite IH.
Qed.

Lemma reported_iters_app (a b : list (line F)) :
  reported_iters (a ++ b) = reported_iters a ++ reported_iters b.
Proof.
  induction a as [|[i|x|t|it e] a IH]; simpl; auto. now rewrite IH.
Qed.

Lemma reported_iters_reports (log : list (nat * F)) :
  reported_iters (map report_line log) = map fst log.
Proof.
  induction log as [|[it e] log IH]; simpl; [reflexivity|]. now rewrite IH.
Qed.

Lemma map_fst_reported (report_every : nat) (log : list (nat * F)) :
  map fst (reported report_every log) =
  filter (fun it => (it mod report_every =? 0)%nat) (map fst log).
Proof.
  unfold reported. induction log as [|[it e] log IH]; [reflexivity|].
  cbn [filter map fst].
  destruct (it mod report_every =? 0)%nat; cbn [map fst]; now rewrite IH.
Qed.

(** On the inputs the data model allows, [train] is the pure loop. *)
Lemma train_well_formed (coupling_reg : F) (N : nat)
    (draw : G -> list nat * G) (report_every num_iter : nat)
    (st0 : state F) (g0 : G) :
  well_formed K X c y N -> in_range draw N -> report_every <> 0%nat ->
  length (st_w st0) = (K + K)%nat ->
  train X c y reg coupling_reg learning_rate draw report_every num_iter
    st0 g0 =
  Ok (fst (fst (ref_epochs K X c y reg coupling_reg learning_rate draw
                  (seq 0 num_iter) (st_w st0) g0)),
      epoch_losses (st_out st0) ++
      snd (ref_train K X c y reg coupling_reg learning_rate draw
             report_every num_iter (st_w st0) g0)).
Proof.
  intros Hwf Hd Hre Ew. unfold train, sgd_loop.
  destruct (for_each_epoch_well_formed reg coupling_reg learning_rate
              (seq 0 num_iter) Hwf Hd Hre st0 g0 Ew)
    as (gr & er & cse & E & _).
  rewrite E. cbn [bind st_w st_out]. unfold ref_train.
  destruct (ref_epochs K X c y reg coupling_reg learning_rate draw
              (seq 0 num_iter) (st_w st0) g0) as [[w' g'] log].
  cbn [fst snd]. now rewrite epoch_losses_app, epoch_losses_reports.
Qed.

(** C9.  On the inputs the data model allows the loop runs every epoch
    [0 .. num_iter-1] (one visiting order drawn for each): each epoch
    starts its cumulative error at zero and adds [error*error] for every
    sample it visits ([ref_pass] from [0]); the printed reports are those
    of the epochs whose number is a multiple of [report_every], each with
    the cumulative error of its own epoch, in order. *)
Theorem sgd_loop_reports_every_interval (coupling_reg : F) (N : nat)
    (draw : G -> list nat * G) (report_every num_iter : nat)
    (st0 : state F) (g0 : G) :
  well_formed K X c y N -> in_range draw N -> report_every <> 0%nat ->
  length (st_w st0) = (K + K)%nat ->
  exists (st : state F) (g : G) (log : list (nat * F)),
    sgd_loop (coupled_body X c y reg coupling_reg learning_rate) draw
      report_every num_iter (st0, g0) = Ok (st, g) /\
    ref_epochs K X c y reg coupling_reg learning_rate draw
      (seq 0 num_iter) (st_w st0) g0 = (st_w st, g, log) /\
    map fst log = seq 0 num_iter /\
    st_out st = st_out st0 ++ map report_line (reported report_every log) /\
    reported_iters (st_out st) =
      reported_iters (st_out st0) ++
      filter (fun it => (it mod report_every =? 0)%nat) (seq 0 num_iter) /\
    epoch_losses (st_out st) =
      epoch_losses (st_out st0) ++ map snd (reported report_every log).
Proof.
  intros Hwf Hd Hre Ew. unfold sgd_loop.
  destruct (for_each_epoch_well_formed reg coupling_reg learning_rate
              (seq 0 num_iter) Hwf Hd Hre st0 g0 Ew)
    as (gr & er & cse & E & _).
  pose proof (epochs_log_iters K X c y reg coupling_reg learning_rate draw
                (seq 0 num_iter) (st_w st0) g0) as El.
  destruct (ref_epochs K X c y reg coupling_reg learning_rate draw
              (seq 0 num_iter) (st_w st0) g0) as [[w' g'] log].
  cbn [fst snd] in *.
  eexists _, g', log. split; [exact E|]. cbn [st_w st_out].
  repeat split; try assumption.
  - now rewrite reported_iters_app, reported_iters_reports,
      map_fst_reported, El.
  - now rewrite epoch_losses_app, epoch_losses_reports.
Qed.

End RefinementClaims.

(** ** Concrete runs *)

(** Equality of concrete results over [Qc]: componentwise, each scalar
    compared through its reduced fraction. *)
Ltac qc_eq :=
  repeat match goal with
         | |- @eq Qc _ _ => apply Qc_is_canon; reflexivity
         | |- @eq (result _) (Ok _) (Ok _) => apply f_equal
         | |- @eq (_ * _) (_, _) (_, _) => apply f_equal2
         | |- @eq (list _) (_ :: _) (_ :: _) => apply f_equal2
         | |- @eq (list _) [] [] => reflexivity
         end.

(** C2.  [K = 2], one sample with features [[1, 0]], task 0, label 5, zero
    initial weights, [reg = coupling_reg = 0], [learning_rate = 1/10]: the
    prediction is 0, the call returns error -5 and gradient [[-5, 0, 0, 0]],
    and after one update the weights are [[1/2, 0, 0, 0]]. *)
Theorem concrete_scenario :
  let x := [qc 1 1; qc 0 1] in
  let w := [qc 0 1; qc 0 1; qc 0 1; qc 0 1] in
  let st0 := State w None None (qc 0 1) [] in
  np_dot x (slice_to 2 w) = Ok (qc 0 1) /\
  coupled_gradient x (qc 0 1) w (qc 5 1) (qc 0 1) (qc 0 1) =
    Ok ([qc (-5) 1; qc 0 1; qc 0 1; qc 0 1], qc (-5) 1) /\
  (st' <- coupled_body [x] [qc 0 1] [qc 5 1] (qc 0 1) (qc 0 1) (qc 1 10)
            st0 0 ;;
   Ok (st_w st')) = Ok [qc 1 2; qc 0 1; qc 0 1; qc 0 1] /\
  train (G := unit) [x] [qc 0 1] [qc 5 1] (qc 0 1) (qc 0 1) (qc 1 10)
    (in_order 0 1) 10 1 st0 tt =
    Ok ([qc 1 2; qc 0 1; qc 0 1; qc 0 1], [qc 25 1]).
Proof.
  repeat split; vm_compute; qc_eq.
Qed.

Section IntegerRuns.
Local Open Scope Z_scope.

(** Task identifier 2 on well-shaped inputs: a gradient, no exception.
    Two samples with three features each where [K = 2], the cell started
    with [grad = [1,1,1,1]] and [err = 2] left by an earlier run: both calls
    raise, both are caught, and [train] returns, the old gradient applied
    twice and the old error counted twice. *)
Lemma no_invalid_sample_error :
  coupled_gradient [1; 2] 2 [1; 2; 3; 5] 5 1 1 = Ok ([0; 0; 17; 30], 8) /\
  train (G := unit) [[1; 0; 3]; [0; 1; 2]] [0; 1] [5; 5] 0 0 1 (in_order 0 2)
    10 1 (State [0; 0; 0; 0] (Some [1; 1; 1; 1]) (Some 2) 0 []) tt =
    Ok ([-2; -2; -2; -2], [8]).
Proof.
  split; reflexivity.
Qed.

(** The coupled loop always permutes, and the permutation shows in the
    result: the same data visited as [[0, 1]] and as [[1, 0]]. *)
Example permuted_order_matters :
  let draw := fun g : bool => (if g then [0; 1]%nat else [1; 0]%nat, g) in
  let st0 := State [0; 0] None None 0 [] in
  train [[1]; [1]] [0; 0] [1; 0] 0 0 1 draw 10 1 st0 true = Ok ([0; 0], [2])
  /\
  train [[1]; [1]] [0; 0] [1; 0] 0 0 1 draw 10 1 st0 false = Ok ([1; 0], [1]).
Proof.
  split; reflexivity.
Qed.

(** The body of the coupled loop, unlike that of the independent loops,
    reads what [grad] and [err] held before the run: on samples whose
    gradient computation raises, two runs in input order that differ in
    nothing else end with different weights and losses. *)
Example coupled_loop_reads_leftovers :
  let run := fun gr er =>
    train (G := unit) [[1; 0; 3]; [0; 1; 2]] [0; 1] [5; 5] 0 0 1
      (in_order 0 2) 10 1 (State [0; 0; 0; 0] (Some gr) (Some er) 0 []) tt in
  run [1; 1; 1; 1] 2 = Ok ([-2; -2; -2; -2], [8]) /\
  run [3; 0; 0; 1] 1 = Ok ([-6; 0; 0; -2], [2]).
Proof.
  split; reflexivity.
Qed.

Lemma coupled_gradient_three_terms_witness :
  coupled_gradient [1; 2] 0 [1; 2; 3; 5] 5 1 1 = Ok ([-1; -1; 0; 0], 0) /\
  coupled_gradient [1; 2] 1 [1; 2; 3; 5] 5 1 1 = Ok ([0; 0; 13; 24], 8).
Proof.
  exact (@coupled_gradient_three_terms Z _ _ 2%nat [1; 2] [1; 2; 3; 5] 5 1 1
           eq_refl eq_refl).
Defined.

Lemma coupled_gradient_segment_sparse_witness :
  exists grad err,
    coupled_gradient [1; 2] 0 [1; 2; 3; 5] 5 1 1 = Ok (grad, err) /\
    nth_error grad 2 = Some 0 /\ nth_error grad 3 = Some 0.
Proof.
  destruct (@coupled_gradient_segment_sparse Z _ _ 2%nat [1; 2] 0
              [1; 2; 3; 5] 5 1 1 eq_refl eq_refl)
    as (grad & err & E & _ & Z0 & _).
  exists grad, err. split; [exact E|].
  split; apply (Z0 eq_refl); lia.
Defined.

Lemma coupled_gradient_nonzero_task_witness :
  coupled_gradient [1; 2] 2 [1; 2; 3; 5] 5 1 1 =
    Ok ([0; 0] ++ [8 * 1 + 1 * 3 + 1 * ((1 - 3) * (1 - 2 * 2));
                   8 * 2 + 1 * 5 + 1 * ((2 - 5) * (1 - 2 * 2))], 8) /\
  coupled_gradient [1; 2] 2 [1; 2; 3; 5] 5 1 1 =
    Ok ([0; 0] ++ [8 * 1 + 1 * 3 + - 3 * 1 * (1 - 3);
                   8 * 2 + 1 * 5 + - 3 * 1 * (2 - 5)], 8).
Proof.
  destruct (@coupled_gradient_nonzero_task Z _ _ 2%nat [1; 2] 2
              [1; 2; 3; 5] 5 1 1 eq_refl eq_refl) as [A B].
  split; [apply A | apply B]; discriminate.
Defined.

Lemma coupled_body_reuses_stale_gradient_witness :
  coupled_body [[1; 0; 3]] [0] [5] 0 0 1
    (State [0; 0; 0; 0] (Some [1; 1; 1; 1]) (Some 2) 0 []) 0 =
  Ok (State [-1; -1; -1; -1] (Some [1; 1; 1; 1]) (Some 2) 4
        [Line_index 0; Line_features [1; 0; 3]; Line_task 0]).
Proof.
  refine (proj1 (proj1 (@coupled_body_reuses_stale_gradient Z _
            [[1; 0; 3]] [0] [5] 0 0 1
            (State [0; 0; 0; 0] (Some [1; 1; 1; 1]) (Some 2) 0 []) 0%nat
            [1; 0; 3] 0 ValueError eq_refl eq_refl eq_refl)
          [1; 1; 1; 1] 2 [] eq_refl eq_refl eq_refl)).
Defined.

Lemma coupled_gradient_raises_iff_bad_length_witness :
  coupled_gradient [1; 0; 3] 0 [0; 0; 0; 0] 5 0 0 = Raise ValueError.
Proof.
  refine (proj2 (@coupled_gradient_raises_iff_bad_length Z _ 0 0 2%nat
            [1; 0; 3] 0 [0; 0; 0; 0] 5 eq_refl) _).
  discriminate.
Defined.

Lemma sample_data_well_formed :
  well_formed 1 [[1]; [2]] [0; 1] [3; 4] 2.
Proof.
  repeat split; repeat constructor.
Defined.

Lemma sample_order_in_range : in_range (in_order (G := unit) 0 2) 2.
Proof.
  intros g. repeat constructor.
Defined.

Lemma sgd_loop_reports_every_interval_witness :
  exists (st : state Z) (g : unit) (log : list (nat * Z)),
    sgd_loop (coupled_body [[1]; [2]] [0; 1] [3; 4] 0 0 1) (in_order 0 2)
      2 3 (State [0; 0] None None 0 [], tt) = Ok (st, g) /\
    log = [(0%nat, 25); (1%nat, 144); (2%nat, 1296)] /\
    reported_iters (st_out st) = [0%nat; 2%nat] /\
    epoch_losses (st_out st) = [25; 1296].
Proof.
  destruct (@sgd_loop_reports_every_interval Z _ _ unit 1%nat
              [[1]; [2]] [0; 1] [3; 4] 0 1 0 2%nat (in_order 0 2) 2%nat
              3%nat (State [0; 0] None None 0 []) tt
              sample_data_well_formed sample_order_in_range
              ltac:(discriminate) eq_refl)
    as (st & g & log & E & Er & _ & _ & Ei & El).
  exists st, g, log. split; [exact E|].
  vm_compute in Er. injection Er as _ _ <-. repeat split; assumption.
Defined.

End IntegerRuns.

(** ** Shapes accepted and returned by the gradient functions *)

Section GradientShapes.
Context {F : Type} `{Scalar F}.
Local Abbreviation vec := (list F).
Local Open Scope scalar_scope.

Add Ring scalar_ring_shapes : scalar_ring.

Lemma broadcast_to_length (n : nat) (v v' : vec) :
  broadcast_to n v = Ok v' -> length v' = n.
Proof.
  unfold broadcast_to. destruct (length v =? n)%nat eqn:E.
  - intros [= <-]. now apply Nat.eqb_eq.
  - destruct v as [|u [|u' v]]; try discriminate.
    intros [= <-]. apply repeat_length.
Qed.

Lemma assign_to_length (h : nat) (a v r : vec) :
  assign_to h a v = Ok r -> length r = length a.
Proof.
  unfold assign_to, slice_to, slice_from.
  destruct (broadcast_to _ v) as [v'|e] eqn:E; [|discriminate].
  intros [= <-]. apply broadcast_to_length in E.
  rewrite length_app, E, <- length_app, firstn_skipn. reflexivity.
Qed.

Lemma assign_from_length (h : nat) (a v r : vec) :
  assign_from h a v = Ok r -> length r = length a.
Proof.
  unfold assign_from, slice_to, slice_from.
  destruct (broadcast_to _ v) as [v'|e] eqn:E; [|discriminate].
  intros [= <-]. apply broadcast_to_length in E.
  rewrite length_app, E, <- length_app, firstn_skipn. reflexivity.
Qed.

Lemma fill_terms_length (c : F) (k : nat) (x : vec) (err : F)
    (w_seg coupling a b d : vec) :
  fill_terms c k x err w_seg coupling = Ok (a, b, d) ->
  length a = k /\ length b = k /\ length d = k.
Proof.
  unfold fill_terms. destruct (c =? 0).
  - destruct (assign_to _ _ (scale err x)) as [a'|] eqn:Ea; [|discriminate].
    destruct (assign_to _ _ w_seg) as [b'|] eqn:Eb; [|discriminate].
    destruct (assign_to _ _ coupling) as [d'|] eqn:Ed; [|discriminate].
    intros [= <- <- <-].
    apply assign_to_length in Ea, Eb, Ed.
    rewrite length_np_zeros in Ea, Eb, Ed. auto.
  - destruct (assign_from _ _ (scale err x)) as [a'|] eqn:Ea; [|discriminate].
    destruct (assign_from _ _ w_seg) as [b'|] eqn:Eb; [|discriminate].
    destruct (assign_from _ _ coupling) as [d'|] eqn:Ed; [|discriminate].
    intros [= <- <- <-].
    apply assign_from_length in Ea, Eb, Ed.
    rewrite length_np_zeros in Ea, Eb, Ed. auto.
Qed.

(** X1.  [basic_gradient] raises numpy's [ValueError] exactly when the
    features and the weights differ in length; otherwise it returns the
    error [dot(x,w) - y] and the gradient [err*x + reg*w], which has the
    length of the weights. *)
Theorem basic_gradient_shape (x w : vec) (y reg : F) :
  basic_gradient x w y reg =
    (if (length x =? length w)%nat
     then Ok (vsum (scale (dot_sum x w - y) x) (scale reg w),
              dot_sum x w - y)
     else Raise ValueError)
  /\
  (forall g e, basic_gradient x w y reg = Ok (g, e) -> length g = length w).
Proof.
  assert (E : basic_gradient x w y reg =
    (if (length x =? length w)%nat
     then Ok (vsum (scale (dot_sum x w - y) x) (scale reg w),
              dot_sum x w - y)
     else Raise ValueError)).
  { unfold basic_gradient, np_dot.
    destruct (length x =? length w)%nat eqn:E; [|reflexivity].
    apply Nat.eqb_eq in E. cbn [bind]. unfold np_add.
    rewrite broadcast2_same by (now rewrite !length_scale).
    reflexivity. }
  split; [exact E|]. intros g e. rewrite E.
  destruct (length x =? length w)%nat eqn:El; [|discriminate].
  apply Nat.eqb_eq in El. intros [= <- _].
  unfold vsum. rewrite length_zip_with, !length_scale. lia.
Qed.

(** X2.  Whatever the shapes of its arguments, a gradient returned by
    [coupled_gradient] has the length of the weight vector, so the update
    [w += -learning_rate * grad] that follows cannot fail on it. *)
Theorem coupled_gradient_keeps_shape (x : vec) (c : F) (w : vec)
    (y reg coupling_reg : F) (g : vec) (e : F) :
  coupled_gradient x c w y reg coupling_reg = Ok (g, e) ->
  length g = length w /\
  forall learning_rate : F,
    np_iadd w (scale (- learning_rate) g) =
    Ok (vsum w (scale (- learning_rate) g)).
Proof.
  unfold coupled_gradient.
  destruct (np_dot x _) as [pred|] eqn:Ep; [|discriminate]. cbn [bind].
  destruct (np_sub _ _) as [diff|] eqn:Ed; [|discriminate]. cbn [bind].
  destruct (fill_terms _ _ _ _ _ _) as [[[a b] d]|] eqn:Ef; [|discriminate].
  cbn [bind]. apply fill_terms_length in Ef. destruct Ef as (La & Lb & Ld).
  unfold np_add.
  rewrite broadcast2_same by (rewrite length_scale; congruence). cbn [bind].
  rewrite broadcast2_same
    by (rewrite length_zip_with, !length_scale, La, Lb, Ld; lia).
  intros [= <- <-].
  assert (L : length (zip_with add (zip_with add a (scale reg b))
                        (scale coupling_reg d)) = length w).
  { rewrite !length_zip_with, !length_scale, La, Lb, Ld. lia. }
  split; [exact L|]. intros learning_rate.
  unfold np_iadd. rewrite broadcast_to_same by (now rewrite length_scale).
  reflexivity.
Qed.

Lemma half_odd (K : nat) : (S (K + K) / 2 = K)%nat.
Proof.
  replace (S (K + K)) with (1 + K * 2)%nat by lia.
  rewrite Nat.div_add by lia. reflexivity.
Qed.

Lemma even_or_odd_length (n : nat) : exists K, n = (K + K)%nat \/ n = S (K + K).
Proof.
  induction n as [|n [K [E|E]]].
  - exists 0%nat. now left.
  - exists K. right. now rewrite E.
  - exists (S K). left. rewrite E. lia.
Qed.

Lemma np_dot_raises (x w : vec) (e : exn) :
  np_dot x w = Raise e -> e = ValueError.
Proof.
  unfold np_dot. destruct (_ =? _)%nat; congruence.
Qed.

(** With weights of odd length 5 or more the halves [w[:k/2]] and
    [w[k/2:]] cannot be subtracted. *)
Lemma coupled_gradient_odd_raises (K : nat) (x : vec) (c : F) (w : vec)
    (y reg coupling_reg : F) :
  length w = S (K + K) -> 2 <= K ->
  coupled_gradient x c w y reg coupling_reg = Raise ValueError.
Proof.
  intros Ew HK. unfold coupled_gradient. rewrite Ew, half_odd.
  destruct (np_dot x _) as [pred|e] eqn:Ep.
  2:{ apply np_dot_raises in Ep. now subst. }
  cbn [bind]. unfold np_sub, broadcast2, slice_to, slice_from.
  assert (La : length (firstn K w) = K) by (rewrite length_firstn; lia).
  assert (Lb : length (skipn K w) = S K) by (rewrite length_skipn; lia).
  rewrite La, Lb.
  replace (K =? S K)%nat with false by (symmetry; apply Nat.eqb_neq; lia).
  destruct (firstn K w) as [|u [|u' a]]; simpl in La; try lia.
  destruct (skipn K w) as [|v [|v' b]]; simpl in Lb; try lia.
  reflexivity.
Qed.


Lemma coupled_gradient_length1 (x : vec) (c a : F) (y reg coupling_reg : F) :
  (exists g e, coupled_gradient x c [a] y reg coupling_reg = Ok (g, e)) <->
  (c = 0 /\ x = []).
Proof.
  unfold coupled_gradient, fill_terms. cbn [length Nat.div Nat.divmod fst].
  rewrite <- (eqb_eq c 0).
  destruct (c =? 0) eqn:Ec.
  - destruct x as [|x1 x]; cbn.
    + split; [auto|]. intros _. eexists _, _. reflexivity.
    + split; [intros (g & e & E); discriminate | intros [_ E]; discriminate].
  - destruct x as [|x1 [|x2 x]]; cbn.
    all: split; [intros (g & e & E); discriminate | intros [E _]; discriminate].
Qed.

Lemma coupled_gradient_length3 (x : vec) (c a b d : F)
    (y reg coupling_reg : F) :
  (exists g e, coupled_gradient x c [a; b; d] y reg coupling_reg = Ok (g, e))
  <-> (c <> 0 /\ length x = 2%nat).
Proof.
  unfold coupled_gradient, fill_terms. cbn [length Nat.div Nat.divmod fst].
  rewrite <- (eqb_false_neq c 0).
  destruct (c =? 0) eqn:Ec.
  - destruct x as [|x1 [|x2 x]]; cbn.
    all: split; [intros (g & e & E); discriminate | intros [E _]; discriminate].
  - destruct x as [|x1 [|x2 [|x3 x]]]; cbn.
    3:{ split; [auto|]. intros _. eexists _, _. reflexivity. }
    all: split; [intros (g & e & E); discriminate | intros [_ E]; discriminate].
Qed.


Lemma broadcast2_raises (f : F -> F -> F) (a b : vec) (e : exn) :
  broadcast2 f a b = Raise e -> e = ValueError.
Proof.
  unfold broadcast2. destruct (_ =? _)%nat; [discriminate|].
  destruct a as [|u [|u' a]]; destruct b as [|v [|v' b]]; congruence.
Qed.

Lemma broadcast_to_raises (n : nat) (v : vec) (e : exn) :
  broadcast_to n v = Raise e -> e = ValueError.
Proof.
  unfold broadcast_to. destruct (_ =? _)%nat; [discriminate|].
  destruct v as [|u [|u' v]]; congruence.
Qed.

Lemma assign_to_raises (h : nat) (a v : vec) (e : exn) :
  assign_to h a v = Raise e -> e = ValueError.
Proof.
  unfold assign_to. destruct (broadcast_to _ v) eqn:E; [discriminate|].
  cbn [bind]. intros [= <-]. now apply broadcast_to_raises in E.
Qed.

Lemma assign_from_raises (h : nat) (a v : vec) (e : exn) :
  assign_from h a v = Raise e -> e = ValueError.
Proof.
  unfold assign_from. destruct (broadcast_to _ v) eqn:E; [discriminate|].
  cbn [bind]. intros [= <-]. now apply broadcast_to_raises in E.
Qed.

Lemma fill_terms_raises (c : F) (k : nat) (x : vec) (err : F)
    (w_seg coupling : vec) (e : exn) :
  fill_terms c k x err w_seg coupling = Raise e -> e = ValueError.
Proof.
  unfold fill_terms. destruct (c =? 0).
  - destruct (assign_to _ _ (scale err x)) eqn:Ea;
      [|cbn [bind]; intros [= <-]; now apply assign_to_raises in Ea].
    destruct (assign_to _ _ w_seg) eqn:Eb;
      [|cbn [bind]; intros [= <-]; now apply assign_to_raises in Eb].
    destruct (assign_to _ _ coupling) eqn:Ed;
      [cbn [bind]; discriminate
      |cbn [bind]; intros [= <-]; now apply assign_to_raises in Ed].
  - destruct (assign_from _ _ (scale err x)) eqn:Ea;
      [|cbn [bind]; intros [= <-]; now apply assign_from_raises in Ea].
    destruct (assign_from _ _ w_seg) eqn:Eb;
      [|cbn [bind]; intros [= <-]; now apply assign_from_raises in Eb].
    destruct (assign_from _ _ coupling) eqn:Ed;
      [cbn [bind]; discriminate
      |cbn [bind]; intros [= <-]; now apply assign_from_raises in Ed].
Qed.

Lemma coupled_gradient_raises (x : vec) (c : F) (w : vec)
    (y reg coupling_reg : F) (e : exn) :
  coupled_gradient x c w y reg coupling_reg = Raise e -> e = ValueError.
Proof.
  unfold coupled_gradient.
  destruct (np_dot x _) eqn:Ep;
    [|cbn [bind]; intros [= <-]; now apply np_dot_raises in Ep].
  cbn [bind]. destruct (np_sub _ _) eqn:Ed;
    [|cbn [bind]; intros [= <-]; now apply broadcast2_raises in Ed].
  cbn [bind]. destruct (fill_terms _ _ _ _ _ _) as [[[t1 t2] t3]|] eqn:Ef;
    [|cbn [bind]; intros [= <-]; now apply fill_terms_raises in Ef].
  cbn [bind]. destruct (np_add t1 _) as [s1|] eqn:E1;
    [|cbn [bind]; intros [= <-]; now apply broadcast2_raises in E1].
  cbn [bind]. destruct (np_add s1 _) eqn:E2;
    [cbn [bind]; discriminate
    |cbn [bind]; intros [= <-]; now apply broadcast2_raises in E2].
Qed.

(** X3.  The shapes [coupled_gradient] accepts: weights twice as long as
    the features; or, through numpy's broadcasting of the two unequal
    halves, a single weight with task 0 and no feature, or three weights
    with a non-zero task and two features.  On every other input it raises,
    and what it raises is always [ValueError]. *)
Theorem coupled_gradient_accepted_shapes (x : vec) (c : F) (w : vec)
    (y reg coupling_reg : F) :
  ((exists g e, coupled_gradient x c w y reg coupling_reg = Ok (g, e)) <->
   ((length w = 2 * length x)%nat \/
    (length w = 1%nat /\ c = 0 /\ x = []) \/
    (length w = 3%nat /\ c <> 0 /\ length x = 2%nat)))
  /\
  (forall e, coupled_gradient x c w y reg coupling_reg = Raise e ->
             e = ValueError).
Proof.
  split; [|intros e; apply coupled_gradient_raises].
  destruct (even_or_odd_length (length w)) as [K [Ew|Ew]].
  - destruct (Nat.eq_dec (length x) K) as [Ex|Ex].
    + split; [intros _; left; lia|]. intros _.
      eexists _, _.
      exact (coupled_gradient_closed_form x c w y reg coupling_reg Ex Ew).
    + rewrite (coupled_gradient_bad_length x c w y reg coupling_reg Ex Ew).
      split; [intros (g & e & E); discriminate|].
      intros [E|[[E _]|[E _]]]; lia.
  - destruct K as [|[|K]].
    + destruct w as [|a [|a' w]]; try discriminate.
      rewrite coupled_gradient_length1. cbn [length]. split.
      * intros E. right. left. auto.
      * intros [E|[[_ E]|[E _]]]; [lia|exact E|discriminate].
    + destruct w as [|a [|b [|d [|d' w]]]]; try discriminate.
      rewrite coupled_gradient_length3. cbn [length]. split.
      * intros E. right. right. auto.
      * intros [E|[[E _]|[_ E]]]; [lia|discriminate|exact E].
    + rewrite (coupled_gradient_odd_raises x c w y reg coupling_reg Ew)
        by lia.
      split; [intros (g & e & E); discriminate|].
      intros [E|[[E _]|[E _]]]; lia.
Qed.

End GradientShapes.

(** ** How the coupling term enters the gradient *)

Section GradientAlgebra.
Context {F : Type} `{Scalar F}.
Local Abbreviation vec := (list F).
Local Open Scope scalar_scope.

Add Ring scalar_ring_algebra : scalar_ring.

Lemma scale_r_zeros (n : nat) (s : F) : scale_r (np_zeros n) s = np_zeros n.
Proof.
  unfold scale_r, np_zeros. induction n as [|n IH]; simpl; [reflexivity|].
  f_equal; [ring | exact IH].
Qed.

Lemma vdiff_same (a : vec) : vdiff a a = np_zeros (length a).
Proof.
  unfold vdiff, np_zeros. induction a as [|u a IH]; simpl; [reflexivity|].
  f_equal; [ring | exact IH].
Qed.

Lemma vdiff_swap (a b : vec) (s t : F) :
  s = - t -> scale_r (vdiff a b) s = scale_r (vdiff b a) t.
Proof.
  intros ->. unfold scale_r, vdiff. revert b.
  induction a as [|u a IH]; intros [|v b]; simpl; try reflexivity.
  f_equal; [ring | apply IH].
Qed.

Lemma segment0_app (K : nat) (a b : vec) :
  length a = K -> segment0 K (a ++ b) = a.
Proof.
  intros E. unfold segment0.
  rewrite firstn_app, E, Nat.sub_diag. simpl.
  rewrite app_nil_r. apply firstn_all2. lia.
Qed.

Lemma segment1_app (K : nat) (a b : vec) :
  length a = K -> segment1 K (a ++ b) = b.
Proof.
  intros E. unfold segment1.
  rewrite skipn_app, E, Nat.sub_diag. simpl.
  rewrite skipn_all2 by lia. reflexivity.
Qed.



End GradientAlgebra.

(** ** What every run keeps, whatever the data *)

Section RunInvariants.
Context {F : Type} `{Arithmetic F}.
Context {G : Type}.
Local Abbreviation vec := (list F).
Local Open Scope scalar_scope.

Variables (X : list (list F)) (c y : list F).
Variables (reg coupling_reg learning_rate : F).

(** What a loop body may change: not the length of [w], and no report. *)
Definition quiet (body : state F -> nat -> result (state F)) : Prop :=
  forall st i st', body st i = Ok st' ->
    length (st_w st') = length (st_w st) /\
    reported_iters (st_out st') = reported_iters (st_out st).

Lemma apply_update_quiet (st st' : state F) :
  apply_update learning_rate st = Ok st' ->
  length (st_w st') = length (st_w st) /\ st_out st' = st_out st.
Proof.
  unfold apply_update.
  destruct (lookup (st_grad st)) as [g|]; [|discriminate]. cbn [bind].
  unfold np_iadd.
  destruct (broadcast_to _ _) as [v'|] eqn:Eb; [|discriminate]. cbn [bind].
  destruct (lookup (st_err st)) as [e|]; [|discriminate]. cbn [bind].
  intros [= <-]. cbn [st_w st_out]. split; [|reflexivity].
  apply broadcast_to_length in Eb. rewrite length_zip_with, Eb. lia.
Qed.

Lemma coupled_body_quiet :
  quiet (coupled_body X c y reg coupling_reg learning_rate).
Proof.
  intros st i st'. unfold coupled_body.
  destruct (try_block X c y reg coupling_reg st i) as [[g e]|ex].
  - cbn [bind]. intros E. apply apply_update_quiet in E.
    cbn [st_w st_out] in E. destruct E as [L ->]. auto.
  - unfold except_block.
    destruct (index X i) as [x|]; [|discriminate]. cbn [bind].
    destruct (index c i) as [ci|]; [|discriminate]. cbn [bind].
    intros E. apply apply_update_quiet in E.
    cbn [st_w st_out] in E. destruct E as [L ->].
    split; [exact L|]. rewrite reported_iters_app. cbn. apply app_nil_r.
Qed.

Lemma basic_body_quiet : quiet (basic_body X y reg learning_rate).
Proof.
  intros st i st'. unfold basic_body.
  destruct (index X i) as [x|]; [|discriminate]. cbn [bind].
  destruct (index y i) as [yi|]; [|discriminate]. cbn [bind].
  destruct (basic_gradient _ _ _ _) as [[g e]|]; [|discriminate]. cbn [bind].
  intros E. apply apply_update_quiet in E.
  cbn [st_w st_out] in E. destruct E as [L ->]. auto.
Qed.

Section QuietBody.
Variable body : state F -> nat -> result (state F).
Hypothesis body_quiet : quiet body.
Variable draw : G -> list nat * G.
Variable report_every : nat.

Lemma for_each_quiet (idx : list nat) :
  forall st st', for_each body idx st = Ok st' ->
    length (st_w st') = length (st_w st) /\
    reported_iters (st_out st') = reported_iters (st_out st).
Proof.
  induction idx as [|i idx IH]; intros st st'; cbn [for_each].
  - intros [= <-]. auto.
  - destruct (body st i) as [st1|] eqn:E1; [|discriminate]. cbn [bind].
    intros E. apply IH in E. apply body_quiet in E1.
    destruct E as [-> ->]. exact E1.
Qed.

Lemma epoch_quiet (st st' : state F) (g g' : G) (it : nat) :
  epoch body draw report_every (st, g) it = Ok (st', g') ->
  length (st_w st') = length (st_w st) /\
  reported_iters (st_out st') =
    reported_iters (st_out st) ++
    filter (fun i => (i mod report_every =? 0)%nat) [it].
Proof.
  unfold epoch. destruct (draw g) as [idx g1].
  destruct (for_each body idx _) as [st1|] eqn:E1; [|discriminate].
  cbn [bind]. apply for_each_quiet in E1. cbn [st_w st_out] in E1.
  destruct E1 as [L R].
  destruct report_every as [|r]; [discriminate|]. cbn [py_mod bind filter].
  destruct (it mod S r =? 0)%nat; intros [= <- <-]; cbn [st_w st_out].
  - split; [exact L|]. rewrite reported_iters_app, R. reflexivity.
  - split; [exact L|]. rewrite R. symmetry. apply app_nil_r.
Qed.

Lemma epochs_quiet (iters : list nat) :
  forall st st' g g',
    for_each (epoch body draw report_every) iters (st, g) = Ok (st', g') ->
    length (st_w st') = length (st_w st) /\
    reported_iters (st_out st') =
      reported_iters (st_out st) ++
      filter (fun i => (i mod report_every =? 0)%nat) iters.
Proof.
  induction iters as [|it iters IH]; intros st st' g g'; cbn [for_each].
  - intros [= <- <-]. cbn. rewrite app_nil_r. auto.
  - destruct (epoch body draw report_every (st, g) it) as [[st1 g1]|] eqn:E1;
      [|discriminate].
    cbn [bind]. intros E. apply IH in E. apply epoch_quiet in E1.
    destruct E as [-> ->]. destruct E1 as [-> ->].
    split; [reflexivity|].
    rewrite <- app_assoc. f_equal.
    symmetry. apply (filter_app _ [it] iters).
Qed.

End QuietBody.

(** X7.  A run of either loop that returns has not changed the length of
    the weight vector, whatever the data, the visiting order and the values
    of [grad] and [err] it started with. *)
Theorem training_keeps_weight_length (draw : G -> list nat * G)
    (report_every num_iter : nat) (st0 st : state F) (g0 g : G) :
  (sgd_loop (coupled_body X c y reg coupling_reg learning_rate) draw
     report_every num_iter (st0, g0) = Ok (st, g) ->
   length (st_w st) = length (st_w st0))
  /\
  (sgd_loop (basic_body X y reg learning_rate) draw report_every num_iter
     (st0, g0) = Ok (st, g) ->
   length (st_w st) = length (st_w st0)).
Proof.
  split; intros E.
  - now apply (epochs_quiet coupled_body_quiet) in E.
  - now apply (epochs_quiet basic_body_quiet) in E.
Qed.

(** X8.  A run of either loop that returns has printed one report for each
    iteration number below [num_iter] that is a multiple of [report_every],
    in increasing order, and no other report; this holds also when samples
    failed and were logged on the way. *)
Theorem training_reports_at_multiples (draw : G -> list nat * G)
    (report_every num_iter : nat) (st0 st : state F) (g0 g : G) :
  (sgd_loop (coupled_body X c y reg coupling_reg learning_rate) draw
     report_every num_iter (st0, g0) = Ok (st, g) ->
   reported_iters (st_out st) =
     reported_iters (st_out st0) ++
     filter (fun i => (i mod report_every =? 0)%nat) (seq 0 num_iter))
  /\
  (sgd_loop (basic_body X y reg learning_rate) draw report_every num_iter
     (st0, g0) = Ok (st, g) ->
   reported_iters (st_out st) =
     reported_iters (st_out st0) ++
     filter (fun i => (i mod report_every =? 0)%nat) (seq 0 num_iter)).
Proof.
  split; intros E.
  - now apply (epochs_quiet coupled_body_quiet) in E.
  - now apply (epochs_quiet basic_body_quiet) in E.
Qed.

End RunInvariants.

(** ** The data cell *)

Section DataCellFacts.
Context {F : Type} `{Arithmetic F}.
Local Abbreviation vec := (list F).
Local Open Scope scalar_scope.

Lemma nth_vsum (a b : vec) (i : nat) :
  (i < length a)%nat -> (i < length b)%nat ->
  nth i (vsum a b) 0 = nth i a 0 + nth i b 0.
Proof.
  unfold vsum. revert b i.
  induction a as [|u a IH]; intros [|v b] [|i] Ha Hb; simpl in *; try lia.
  - reflexivity.
  - apply IH; lia.
Qed.

Lemma nth_scale_r (a : vec) (s : F) (i : nat) :
  (i < length a)%nat -> nth i (scale_r a s) 0 = nth i a 0 * s.
Proof.
  unfold scale_r. revert i.
  induction a as [|u a IH]; intros [|i] Ha; simpl in *; try lia.
  - reflexivity.
  - apply IH; lia.
Qed.

Lemma nth_products (cols : list vec) (w : vec) (i : nat) :
  nth i (map (fun col => dot_sum col w) cols) 0 =
  dot_sum (nth i cols []) w.
Proof.
  exact (map_nth (fun col => dot_sum col w) cols [] i).
Qed.

Lemma T_dot_shape (K : nat) (cols : list vec) (w : vec) :
  length w = K ->
  T_dot K cols w = Ok (map (fun col => dot_sum col w) cols).
Proof.
  intros E. unfold T_dot. rewrite E, Nat.eqb_refl. reflexivity.
Qed.

(** The labels the cell computes from well-shaped draws, for an even
    number [h + h] of samples. *)
Definition labels (h : nat) (n_s : F) (w_0 w_1 : vec) (X : list vec)
    (r_y0 r_y1 : vec) : vec :=
  vsum (map (fun col => dot_sum col w_0) (firstn h X)) (scale_r r_y0 n_s) ++
  vsum (map (fun col => dot_sum col w_1) (skipn h X)) (scale_r r_y1 n_s).

Lemma data_cell_even_form (K h : nat) (s n_s : F) (r_w0 r_w1 : vec)
    (X : list vec) (r_y0 r_y1 : vec) :
  randn_shapes K (h + h) r_w0 r_w1 X r_y0 r_y1 ->
  data_cell K (h + h) s n_s r_w0 r_w1 X r_y0 r_y1 =
  Ok (Dataset r_w0 (vsum r_w0 (scale_r r_w1 s)) X
        (np_zeros h ++ np_ones h)
        (labels h n_s r_w0 (vsum r_w0 (scale_r r_w1 s)) X r_y0 r_y1)).
Proof.
  intros (L0 & L1 & LX & _ & Ly0 & Ly1). rewrite half_double in Ly0, Ly1.
  unfold data_cell. rewrite half_double. unfold np_add.
  rewrite broadcast2_same by (rewrite length_scale_r; congruence).
  cbn [bind]. rewrite T_dot_shape by assumption. cbn [bind].
  rewrite broadcast2_same
    by (rewrite length_map, length_firstn, length_scale_r; lia).
  cbn [bind]. rewrite T_dot_shape.
  2:{ rewrite length_zip_with, length_scale_r. lia. }
  cbn [bind].
  rewrite broadcast2_same
    by (rewrite length_map, length_skipn, length_scale_r; lia).
  reflexivity.
Qed.

Lemma labels_first (h : nat) (n_s : F) (w_0 w_1 : vec) (X : list vec)
    (r_y0 r_y1 : vec) (i : nat) :
  length X = (h + h)%nat -> length r_y0 = h -> (i < h)%nat ->
  nth i (labels h n_s w_0 w_1 X r_y0 r_y1) 0 =
  dot_sum (nth i X []) w_0 + nth i r_y0 0 * n_s.
Proof.
  intros LX Ly Hi. unfold labels.
  rewrite app_nth1.
  2:{ unfold vsum. rewrite length_zip_with, length_map, length_firstn,
        length_scale_r. lia. }
  rewrite nth_vsum, nth_products, nth_scale_r, nth_firstn;
    rewrite ?length_map, ?length_firstn, ?length_scale_r; try lia.
  apply Nat.ltb_lt in Hi. now rewrite Hi.
Qed.

Lemma labels_second (h : nat) (n_s : F) (w_0 w_1 : vec) (X : list vec)
    (r_y0 r_y1 : vec) (i : nat) :
  length X = (h + h)%nat -> length r_y0 = h -> length r_y1 = h ->
  (i < h)%nat ->
  nth (h + i) (labels h n_s w_0 w_1 X r_y0 r_y1) 0 =
  dot_sum (nth (h + i) X []) w_1 + nth i r_y1 0 * n_s.
Proof.
  intros LX Ly0 Ly1 Hi. unfold labels.
  assert (L : length (vsum (map (fun col => dot_sum col w_0) (firstn h X))
                        (scale_r r_y0 n_s)) = h).
  { unfold vsum. rewrite length_zip_with, length_map, length_firstn,
      length_scale_r. lia. }
  rewrite app_nth2 by lia. rewrite L.
  replace (h + i - h)%nat with i by lia.
  rewrite nth_vsum, nth_products, nth_scale_r, nth_skipn;
    rewrite ?length_map, ?length_skipn, ?length_scale_r; try lia.
  reflexivity.
Qed.

Lemma length_labels (h : nat) (n_s : F) (w_0 w_1 : vec) (X : list vec)
    (r_y0 r_y1 : vec) :
  length X = (h + h)%nat -> length r_y0 = h -> length r_y1 = h ->
  length (labels h n_s w_0 w_1 X r_y0 r_y1) = (h + h)%nat.
Proof.
  intros LX Ly0 Ly1. unfold labels, vsum.
  rewrite length_app, !length_zip_with, !length_map, !length_scale_r,
    length_firstn, length_skipn.
  lia.
Qed.

(** X11.  For an even number [h + h] of samples and draws of the shapes
    [randn] gives them, the data cell returns: [w_1] is [w_0 + r*s]; the
    task identifiers are [h] zeros then [h] ones; the data are of the
    shape the training loops need; and each label is the product of its
    column of [X] with the weights of its task plus [n_s] times its
    noise draw. *)
Theorem data_cell_even (K h : nat) (s n_s : F) (r_w0 r_w1 : vec)
    (X : list vec) (r_y0 r_y1 : vec) :
  randn_shapes K (h + h) r_w0 r_w1 X r_y0 r_y1 ->
  exists d,
    data_cell K (h + h) s n_s r_w0 r_w1 X r_y0 r_y1 = Ok d /\
    d_w_0 d = r_w0 /\ d_w_1 d = vsum r_w0 (scale_r r_w1 s) /\
    d_X d = X /\ d_c d = np_zeros h ++ np_ones h /\
    well_formed K (d_X d) (d_c d) (d_y d) (h + h) /\
    length (d_w_0 d) = K /\ length (d_w_1 d) = K /\
    forall i, (i < h)%nat ->
      nth i (d_y d) 0 =
        dot_sum (nth i X []) (d_w_0 d) + nth i r_y0 0 * n_s /\
      nth (h + i) (d_y d) 0 =
        dot_sum (nth (h + i) X []) (d_w_1 d) + nth i r_y1 0 * n_s.
Proof.
  intros Hs. rewrite data_cell_even_form by exact Hs.
  destruct Hs as (L0 & L1 & LX & HX & Ly0 & Ly1).
  rewrite half_double in Ly0, Ly1.
  eexists. split; [reflexivity|]. cbn [d_w_0 d_w_1 d_X d_c d_y].
  do 4 (split; [reflexivity|]). split; [|split; [exact L0|split]].
  - unfold well_formed. split; [exact LX|]. split.
    + unfold np_ones. rewrite length_app, length_np_zeros, repeat_length.
      reflexivity.
    + split; [now apply length_labels | exact HX].
  - unfold vsum. rewrite length_zip_with, length_scale_r. lia.
  - intros i Hi. split.
    + apply labels_first; assumption.
    + apply labels_second; assumption.
Qed.

(** X12.  For an odd number of samples, five or more, the data cell
    fails: [X[:, N/2:]] has one column more than [randn(N/2)] has
    entries, and the sum that makes [y_1] raises [ValueError]. *)
Theorem data_cell_odd (K h : nat) (s n_s : F) (r_w0 r_w1 : vec)
    (X : list vec) (r_y0 r_y1 : vec) :
  randn_shapes K (S (h + h)) r_w0 r_w1 X r_y0 r_y1 -> 2 <= h ->
  data_cell K (S (h + h)) s n_s r_w0 r_w1 X r_y0 r_y1 = Raise ValueError.
Proof.
  intros (L0 & L1 & LX & _ & Ly0 & Ly1) Hh. rewrite half_odd in Ly0, Ly1.
  unfold data_cell. rewrite half_odd. unfold np_add.
  rewrite broadcast2_same by (rewrite length_scale_r; congruence).
  cbn [bind]. rewrite T_dot_shape by assumption. cbn [bind].
  rewrite broadcast2_same
    by (rewrite length_map, length_firstn, length_scale_r; lia).
  cbn [bind]. rewrite T_dot_shape.
  2:{ rewrite length_zip_with, length_scale_r. lia. }
  cbn [bind]. unfold broadcast2.
  rewrite length_map, length_skipn, length_scale_r, LX, Ly1.
  replace (S (h + h) - h =? h)%nat with false
    by (symmetry; apply Nat.eqb_neq; lia).
  assert (La : length (map (fun col => dot_sum col
                 (zip_with add r_w0 (scale_r r_w1 s))) (skipn h X)) = S h)
    by (rewrite length_map, length_skipn; lia).
  assert (Lb : length (scale_r r_y1 n_s) = h)
    by (now rewrite length_scale_r).
  destruct (map _ (skipn h X)) as [|u [|u' a]]; simpl in La; try lia.
  destruct (scale_r r_y1 n_s) as [|v [|v' b]]; simpl in Lb; try lia.
  reflexivity.
Qed.

End DataCellFacts.

(** ** Which exceptions the loop bodies raise, and what they read *)

Section BodyEdges.
Context {F : Type} `{Arithmetic F}.
Context {G : Type}.
Local Abbreviation vec := (list F).
Local Open Scope scalar_scope.

Variables (X : list (list F)) (c y : list F).
Variables (reg coupling_reg learning_rate : F).

Local Abbreviation coupled :=
  (coupled_body X c y reg coupling_reg learning_rate).
Local Abbreviation basic := (basic_body X y reg learning_rate).

Lemma index_raises {A : Type} (a : list A) (i : nat) (e : exn) :
  index a i = Raise e -> e = IndexError /\ (length a <= i)%nat.
Proof.
  unfold index. destruct (nth_error a i) eqn:E; [discriminate|].
  intros [= <-]. split; [reflexivity|]. now apply nth_error_None.
Qed.

Lemma index_ok {A : Type} (a : list A) (i : nat) (v : A) :
  index a i = Ok v -> (i < length a)%nat.
Proof.
  unfold index. destruct (nth_error a i) eqn:E; [|discriminate].
  intros _. apply nth_error_Some. congruence.
Qed.

Lemma apply_update_no_index_error (st : state F) :
  apply_update learning_rate st <> Raise IndexError.
Proof.
  unfold apply_update.
  destruct (lookup (st_grad st)) as [g|e] eqn:Eg.
  2:{ destruct (st_grad st); cbn in Eg; [discriminate|].
      injection Eg as <-. cbn. discriminate. }
  cbn [bind]. unfold np_iadd.
  destruct (broadcast_to _ _) as [v|e] eqn:Eb.
  2:{ apply broadcast_to_raises in Eb. subst. cbn. discriminate. }
  cbn [bind].
  destruct (lookup (st_err st)) as [er|e] eqn:Ee.
  2:{ destruct (st_err st); cbn in Ee; [discriminate|].
      injection Ee as <-. cbn. discriminate. }
  cbn. discriminate.
Qed.

(** X15.  The bare [except] does not make the coupled loop safe against a
    sample index outside the data: the body raises [IndexError] exactly
    when [X] or [c] has no entry [i], because the handler's own prints
    read them again.  An index outside [y] alone is swallowed: the
    handler logs the sample and the update statements run. *)
Theorem coupled_body_index_error (st : state F) (i : nat) :
  (coupled st i = Raise IndexError <->
   (length X <= i \/ length c <= i)%nat)
  /\
  (forall x ci, index X i = Ok x -> index c i = Ok ci ->
     (length y <= i)%nat ->
     coupled st i = apply_update learning_rate (logged st i x ci)).
Proof.
  split.
  - unfold coupled_body, try_block, except_block.
    destruct (index X i) as [x|e] eqn:EX.
    + destruct (index c i) as [ci|e] eqn:Ec.
      * apply index_ok in EX, Ec. cbn [bind].
        split; [|lia]. intros E. exfalso.
        destruct (index y i) as [yi|e]; cbn [bind] in E.
        -- destruct (coupled_gradient _ _ _ _ _ _) as [[g er]|e];
             cbn [bind] in E; now apply apply_update_no_index_error in E.
        -- now apply apply_update_no_index_error in E.
      * apply index_raises in Ec. destruct Ec as [-> Hc]. cbn [bind].
        split; auto.
    + apply index_raises in EX. destruct EX as [-> HX]. cbn [bind].
      split; auto.
  - intros x ci EX Ec Hy. unfold coupled_body, try_block, except_block.
    rewrite EX, Ec. cbn [bind].
    unfold index at 1. apply nth_error_None in Hy. rewrite Hy.
    reflexivity.
Qed.

(** What a caller sees of a run: the weights, the printed lines and the
    generator. *)
Definition observable (r : result (state F * G))
    : result (list F * list (line F) * G) :=
  match r with
  | Ok (st, g) => Ok (st_w st, st_out st, g)
  | Raise e => Raise e
  end.

Lemma basic_body_reads (st st' : state F) (i : nat) :
  st_w st = st_w st' -> st_cum_err st = st_cum_err st' ->
  st_out st = st_out st' ->
  basic st i = basic st' i.
Proof.
  intros Ew Ec Eo. unfold basic_body. rewrite Ew, Ec, Eo. reflexivity.
Qed.

Lemma basic_pass_reads (idx : list nat) (st st' : state F) :
  st_w st = st_w st' -> st_cum_err st = st_cum_err st' ->
  st_out st = st_out st' ->
  match for_each basic idx st, for_each basic idx st' with
  | Ok t, Ok t' =>
      st_w t = st_w t' /\ st_cum_err t = st_cum_err t' /\
      st_out t = st_out t'
  | Raise e, Raise e' => e = e'
  | _, _ => False
  end.
Proof.
  intros Ew Ec Eo. destruct idx as [|i idx]; cbn [for_each].
  - auto.
  - rewrite (basic_body_reads st st' i Ew Ec Eo).
    destruct (basic st' i) as [t|e]; cbn [bind]; [|reflexivity].
    destruct (for_each basic idx t); auto.
Qed.

Lemma basic_epochs_read (draw : G -> list nat * G) (report_every : nat)
    (iters : list nat) :
  forall (st st' : state F) (g : G),
  st_w st = st_w st' -> st_out st = st_out st' ->
  observable (for_each (epoch basic draw report_every) iters (st, g)) =
  observable (for_each (epoch basic draw report_every) iters (st', g)).
Proof.
  induction iters as [|it iters IH]; intros st st' g Ew Eo.
  - cbn. now rewrite Ew, Eo.
  - cbn [for_each]. unfold epoch at 1 3.
    destruct (draw g) as [idx g'].
    pose proof (basic_pass_reads idx
      (State (st_w st) (st_grad st) (st_err st) 0 (st_out st))
      (State (st_w st') (st_grad st') (st_err st') 0 (st_out st'))
      Ew eq_refl Eo) as P.
    destruct (for_each basic idx _) as [t|e];
      destruct (for_each basic idx _) as [t'|e']; try contradiction.
    + destruct P as (Pw & Pc & Po). cbn [bind].
      destruct (py_mod it report_every) as [r|e]; [|reflexivity].
      cbn [bind].
      destruct (r =? 0)%nat; apply IH; cbn [st_w st_out]; congruence.
    + now subst.
Qed.

(** X16.  The independent-estimation loop never reads what [grad], [err]
    and [cum_err] held before it started: its final weights, everything it
    prints and the exception it raises, if any, are the same from any two
    values of them, for any data and visiting order. *)
Theorem basic_loop_ignores_leftovers (draw : G -> list nat * G)
    (report_every num_iter : nat) (w : vec) (out : list (line F))
    (gr gr' : option vec) (er er' : option F) (ce ce' : F) (g : G) :
  observable (sgd_loop basic draw report_every num_iter
                (State w gr er ce out, g)) =
  observable (sgd_loop basic draw report_every num_iter
                (State w gr' er' ce' out, g)).
Proof.
  unfold sgd_loop. now apply basic_epochs_read.
Qed.

Lemma delivered_observable (r r' : result (state F * G)) :
  observable r = observable r' -> delivered r = delivered r'.
Proof.
  destruct r as [[st g]|e], r' as [[st' g']|e']; cbn; congruence.
Qed.

Lemma delivered_with_gen (g : G) (r : result (state F * G)) :
  delivered (with_gen g r) = delivered r.
Proof. destruct r as [[st g']|e]; reflexivity. Qed.


End BodyEdges.

(** ** The loop bodies on the samples of the data set, without laws *)

Section InRange.
Context {F : Type} `{Arithmetic F}.
Context {G : Type}.
Local Abbreviation vec := (list F).
Local Open Scope scalar_scope.

Variable K : nat.
Variables (X : list (list F)) (c y : list F).
Variables (reg coupling_reg learning_rate : F).

Local Abbreviation coupled :=
  (coupled_body X c y reg coupling_reg learning_rate).
Local Abbreviation basic := (basic_body X y reg learning_rate).

Lemma length_padded_gradient (x : vec) (ci : F) (w : vec) (yi : F) :
  length x = K -> length w = (K + K)%nat ->
  length (padded_gradient K x ci w yi reg coupling_reg) = (K + K)%nat.
Proof.
  intros Ex Ew. unfold padded_gradient, vsum, error_part.
  rewrite !length_zip_with, !length_scale, !length_place;
    rewrite ?length_scale, ?length_scale_r, ?length_active_segment;
    auto using length_vdiff_segments.
  lia.
Qed.

Lemma seg_step (t : bool) (w g : vec) :
  seg t K (vsum w (scale (- learning_rate) g)) =
  vsum (seg t K w) (scale (- learning_rate) (seg t K g)).
Proof. unfold vsum. now rewrite seg_zip_with, seg_scale. Qed.

Lemma task_is_nth (N i : nat) (t : bool) :
  length c = N -> (i < N)%nat ->
  task_is c t i = Bool.eqb (nth i c 0 =? 0) t.
Proof.
  intros Ec Hi. unfold task_is, is_task0.
  rewrite (nth_error_nth' c 0) by lia.
  destruct (nth i c 0 =? 0), t; reflexivity.
Qed.

(** On a sample of the data set the [try] block succeeds: the body is
    one update by the gradient the code adds up. *)
Lemma coupled_body_in_range (N i : nat) (st : state F) :
  well_formed K X c y N -> (i < N)%nat ->
  length (st_w st) = (K + K)%nat ->
  let x := nth i X [] in
  let ci := nth i c 0 in
  let yi := nth i y 0 in
  let g := padded_gradient K x ci (st_w st) yi reg coupling_reg in
  let e := dot_sum x (active_segment K ci (st_w st)) - yi in
  coupled st i =
  Ok (State (vsum (st_w st) (scale (- learning_rate) g)) (Some g) (Some e)
        (st_cum_err st + e * e) (st_out st)).
Proof.
  intros Hwf Hi Ew. cbv zeta.
  pose proof (wf_features Hwf Hi) as Lx.
  destruct Hwf as (EX & Ec & Ey & _).
  unfold coupled_body, try_block.
  rewrite (index_in_range X []), (index_in_range c 0), (index_in_range y 0)
    by lia.
  cbn [bind].
  rewrite (coupled_gradient_padded _ _ _ _ _ _ Lx Ew).
  cbn [bind]. unfold apply_update. cbn [st_grad st_w st_err lookup bind].
  rewrite np_iadd_same; [reflexivity|].
  rewrite length_scale, Ew. now apply length_padded_gradient.
Qed.

(** The body of the independent loops on a sample of the data set, from
    weights of length [K]. *)
Lemma basic_body_in_range (N i : nat) (st : state F) :
  well_formed K X c y N -> (i < N)%nat -> length (st_w st) = K ->
  let x := nth i X [] in
  let yi := nth i y 0 in
  let e := dot_sum x (st_w st) - yi in
  let g := vsum (scale e x) (scale reg (st_w st)) in
  basic st i =
  Ok (State (vsum (st_w st) (scale (- learning_rate) g)) (Some g) (Some e)
        (st_cum_err st + e * e) (st_out st)).
Proof.
  intros Hwf Hi Ew. cbv zeta.
  pose proof (wf_features Hwf Hi) as Lx.
  destruct Hwf as (EX & Ec & Ey & _).
  unfold basic_body, basic_gradient.
  rewrite (index_in_range X []), (index_in_range y 0) by lia.
  cbn [bind]. rewrite np_dot_same by congruence. cbn [bind].
  unfold np_add. rewrite broadcast2_same by (rewrite !length_scale; congruence).
  cbn [bind]. unfold apply_update. cbn [st_grad st_w st_err lookup bind].
  rewrite np_iadd_same; [reflexivity|].
  unfold vsum. rewrite length_scale, length_zip_with, !length_scale. lia.
Qed.

Lemma in_range_only_task (t : bool) (draw : G -> list nat * G) (N : nat) :
  in_range draw N -> in_range (only_task c t draw) N.
Proof.
  intros Hd g. specialize (Hd g). unfold only_task.
  destruct (draw g) as [idx g']. cbn [fst] in *.
  rewrite Forall_forall in *. intros i Hi.
  apply filter_In in Hi. now apply Hd.
Qed.

(** Leaving samples out twice is leaving them out once. *)
Lemma only_task_twice (t : bool) (draw : G -> list nat * G) (g : G) :
  only_task c t (only_task c t draw) g = only_task c t draw g.
Proof.
  unfold only_task. destruct (draw g) as [idx g']. f_equal.
  induction idx as [|i idx IH]; [reflexivity|]. cbn [filter].
  destruct (task_is c t i) eqn:E; cbn [filter]; rewrite ?E, IH; reflexivity.
Qed.

Lemma sgd_loop_ext (body : state F -> nat -> result (state F))
    (draw draw' : G -> list nat * G) (report_every num_iter : nat) :
  (forall g, draw g = draw' g) ->
  forall sg, sgd_loop body draw report_every num_iter sg =
             sgd_loop body draw' report_every num_iter sg.
Proof.
  intros E. unfold sgd_loop. generalize (seq 0 num_iter).
  induction l as [|it l IH]; intros [st g]; [reflexivity|].
  cbn [for_each]. unfold epoch at 1 3. rewrite E.
  destruct (draw' g) as [idx g'].
  destruct (for_each body idx _) as [st1|]; [|reflexivity]. cbn [bind].
  destruct (py_mod it report_every) as [r|]; [|reflexivity]. cbn [bind].
  apply IH.
Qed.

End InRange.

(** ** Vectors compared up to what a sum with zero can change *)

Section Tolerant.
Context {F : Type} `{Absorbing F}.
Local Abbreviation vec := (list F).
Local Open Scope scalar_scope.

(** Two arrays the same entry by entry; an array of finite entries; an
    array of zeros. *)
Definition same_vec (a b : vec) : Prop := Forall2 same a b.
Definition fin_vec (a : vec) : Prop := Forall (fun v => finite v = true) a.
Definition null_vec (a : vec) : Prop := Forall (fun v => same v 0) a.

Lemma same_vec_refl (a : vec) : same_vec a a.
Proof. induction a; constructor; auto using same_refl. Qed.

Lemma same_vec_sym (a b : vec) : same_vec a b -> same_vec b a.
Proof. induction 1; constructor; auto using same_sym. Qed.

Lemma same_vec_trans (a b c : vec) :
  same_vec a b -> same_vec b c -> same_vec a c.
Proof.
  intros E. revert c. induction E as [|u v a b Huv _ IH]; intros c Ec.
  - exact Ec.
  - inversion Ec as [|v' w b' c' Hvw Ebc]; subst. constructor.
    + exact (same_trans _ _ _ Huv Hvw).
    + now apply IH.
Qed.

Lemma same_zip_with (f : F -> F -> F) (a a' b b' : vec) :
  (forall u u' v v', same u u' -> same v v' -> same (f u v) (f u' v')) ->
  same_vec a a' -> same_vec b b' ->
  same_vec (zip_with f a b) (zip_with f a' b').
Proof.
  intros Hf Ea. revert b b'.
  induction Ea as [|u u' a a' Hu _ IH]; intros b b' Eb.
  - destruct Eb; constructor.
  - destruct Eb as [|v v' b b' Hv Eb]; cbn [zip_with]; constructor.
    + now apply Hf.
    + now apply IH.
Qed.

Lemma same_scale (s : F) (a a' : vec) :
  same_vec a a' -> same_vec (scale s a) (scale s a').
Proof.
  induction 1 as [|u u' a a' Hu _ IH]; cbn [scale map]; constructor.
  - apply same_mul; [apply same_refl | exact Hu].
  - exact IH.
Qed.

Lemma same_dot_sum (x w w' : vec) :
  same_vec w w' -> same (dot_sum x w) (dot_sum x w').
Proof.
  intros E. revert x. induction E as [|v v' w w' Hv _ IH]; intros [|u x];
    cbn [dot_sum]; try apply same_refl.
  apply same_add; [|apply IH]. apply same_mul; [apply same_refl | exact Hv].
Qed.

Lemma fin_zip_add (a b : vec) :
  length a = length b -> fin_vec (zip_with add a b) ->
  fin_vec a /\ fin_vec b.
Proof.
  revert b. induction a as [|u a IH]; intros [|v b] L; try discriminate.
  - split; constructor.
  - cbn [zip_with]. intros E. inversion E as [|? ? Huv E']; subst.
    apply finite_add in Huv. destruct (IH b) as [Ha Hb]; auto.
    split; constructor; tauto.
Qed.

Lemma fin_scale (s : F) (a : vec) : fin_vec (scale s a) -> fin_vec a.
Proof.
  induction a as [|u a IH]; cbn [scale map]; intros E; [constructor|].
  inversion E as [|? ? Hu E']; subst. apply finite_mul in Hu.
  constructor; [tauto | exact (IH E')].
Qed.

Lemma null_zeros (n : nat) : null_vec (np_zeros n).
Proof.
  induction n; cbn [np_zeros repeat]; constructor;
    [apply same_refl | assumption].
Qed.

Lemma null_scale (s : F) (a : vec) :
  same s 0 \/ null_vec a -> fin_vec (scale s a) -> null_vec (scale s a).
Proof.
  induction a as [|u a IH]; cbn [scale map]; intros Hz E; [constructor|].
  inversion E as [|? ? Hu E']; subst. constructor.
  - destruct Hz as [Hs|Ha]; [now apply mul_zero_l|].
    inversion Ha; subst. now apply mul_zero_r.
  - apply IH; [|assumption]. destruct Hz as [Hs|Ha]; [now left|].
    inversion Ha; subst. now right.
Qed.

Lemma vsum_null (a z : vec) :
  length z = length a -> null_vec z -> same_vec (vsum a z) a.
Proof.
  unfold vsum. revert z. induction a as [|u a IH]; intros [|v z] L Hz;
    try discriminate; cbn [zip_with]; constructor.
  - inversion Hz; subst. now apply add_zero_r.
  - inversion Hz; subst. apply IH; auto.
Qed.

Lemma same_null (a b : vec) : same_vec a b -> null_vec b -> null_vec a.
Proof.
  induction 1 as [|u v a b Huv _ IH]; intros Hb; constructor.
  - inversion Hb; subst. eapply same_trans; eassumption.
  - inversion Hb; subst. now apply IH.
Qed.

Lemma null_vsum (a z : vec) :
  length z = length a -> null_vec a -> null_vec z -> null_vec (vsum a z).
Proof.
  intros L Ha Hz. exact (same_null (vsum_null a L Hz) Ha).
Qed.

End Tolerant.

(** ** A segment of the coupled weights against the independent loop *)

Section Decoupling.
Context {F : Type} `{Absorbing F}.
Context {G : Type}.
Local Abbreviation vec := (list F).
Local Open Scope scalar_scope.

Variable K : nat.
Variables (X : list (list F)) (c y : list F).
Variables (reg coupling_reg learning_rate : F).
Hypothesis no_coupling : same coupling_reg 0.

(** The segment followed: segment 0 with the samples of task 0, or segment
    1 with the others. *)
Variable t : bool.

Local Abbreviation coupled :=
  (coupled_body X c y reg coupling_reg learning_rate).
Local Abbreviation basic := (basic_body X y reg learning_rate).
Local Abbreviation wf := (well_formed K X c y).
Local Abbreviation update w g := (vsum w (scale (- learning_rate) g)).

Lemma same_scale_l (s s' : F) (a : vec) :
  same s s' -> same_vec (scale s a) (scale s' a).
Proof.
  intros Hs. induction a as [|u a IH]; cbn [scale map]; constructor.
  - apply same_mul; [exact Hs | apply same_refl].
  - exact IH.
Qed.

Lemma same_update (w w' g g' : vec) :
  same_vec w w' -> same_vec g g' -> same_vec (update w g) (update w' g').
Proof.
  intros Ew Eg. apply same_zip_with; [apply same_add | exact Ew |].
  now apply same_scale.
Qed.

(** What is finite after an update was finite before it. *)
Lemma update_finite (w g : vec) :
  length w = (K + K)%nat -> length g = (K + K)%nat ->
  fin_vec (seg t K (update w g)) ->
  fin_vec (seg t K w) /\ fin_vec (seg t K g).
Proof.
  intros Ew Eg E. rewrite seg_step in E.
  apply fin_zip_add in E.
  - destruct E as [E1 E2]. split; [exact E1|]. now apply fin_scale in E2.
  - now rewrite length_scale, !length_seg.
Qed.

(** A sample of the other task: the segment is updated by products with
    zero, which, finite, are zeros. *)
Lemma other_step (x : vec) (ci : F) (w : vec) (yi : F) :
  length x = K -> length w = (K + K)%nat -> (ci =? 0) = negb t ->
  let w' := update w (padded_gradient K x ci w yi reg coupling_reg) in
  fin_vec (seg t K w') -> same_vec (seg t K w') (seg t K w).
Proof.
  intros Ex Ew Et w' E. subst w'.
  destruct (@update_finite w _ Ew
              (length_padded_gradient reg coupling_reg x ci w yi Ex Ew) E)
    as [_ Eg].
  rewrite seg_step in *.
  rewrite (seg_padded_inactive t x ci w yi reg coupling_reg Ex Ew Et) in *.
  apply fin_zip_add in Eg;
    [|unfold vsum; now rewrite length_zip_with, !length_scale,
        !length_np_zeros, Nat.min_id].
  destruct Eg as [Eg Ek].
  apply fin_zip_add in Eg; [|now rewrite length_scale].
  destruct Eg as [_ Er].
  assert (Nr : null_vec (scale reg (np_zeros K)))
    by (apply null_scale; [right; apply null_zeros | exact Er]).
  assert (Nk : null_vec (scale coupling_reg (np_zeros K)))
    by (apply null_scale; [right; apply null_zeros | exact Ek]).
  assert (Z : null_vec (vsum (vsum (np_zeros K) (scale reg (np_zeros K)))
                          (scale coupling_reg (np_zeros K)))).
  { apply null_vsum; [|apply null_vsum|]; auto using null_zeros.
    - unfold vsum. now rewrite length_zip_with, !length_scale,
        !length_np_zeros, Nat.min_id.
    - now rewrite length_scale. }
  apply vsum_null.
  - unfold vsum. rewrite length_scale, !length_zip_with, !length_scale,
      !length_np_zeros, length_seg by assumption. lia.
  - apply null_scale; [now right|].
    apply fin_zip_add in E; [tauto|].
    unfold vsum. rewrite length_scale, !length_zip_with, !length_scale,
      !length_np_zeros, length_seg by assumption. lia.
Qed.

(** A sample of the task followed: with no coupling, the segment moves as
    the weights of the independent loop do. *)
Lemma own_step (x : vec) (ci : F) (w : vec) (yi : F) (b : vec) :
  length x = K -> length w = (K + K)%nat -> (ci =? 0) = t ->
  same_vec (seg t K w) b ->
  let w' := update w (padded_gradient K x ci w yi reg coupling_reg) in
  let b' :=
    update b (vsum (scale (dot_sum x b - yi) x) (scale reg b)) in
  fin_vec (seg t K w') -> same_vec (seg t K w') b'.
Proof.
  intros Ex Ew Et Eb w' b' E.
  pose proof (length_seg t K w Ew) as Ls.
  destruct (@update_finite w _ Ew
              (length_padded_gradient reg coupling_reg x ci w yi Ex Ew) E)
    as [_ Eg].
  unfold w', b'. rewrite seg_step.
  rewrite (seg_padded_active x ci w yi reg coupling_reg Ex Ew Et) in *.
  apply same_update; [exact Eb|].
  apply fin_zip_add in Eg.
  2:{ unfold vsum. rewrite length_zip_with, !length_scale, length_scale_r,
        length_vdiff_segments by assumption. lia. }
  destruct Eg as [_ Ek].
  eapply same_vec_trans.
  - apply vsum_null; [|apply null_scale; [now left | exact Ek]].
    unfold vsum. rewrite length_zip_with, !length_scale, length_scale_r,
      length_vdiff_segments by assumption. lia.
  - apply same_zip_with; [apply same_add | |now apply same_scale].
    apply same_scale_l. apply same_sub; [|apply same_refl].
    now apply same_dot_sum.
Qed.

(** One stretch of the two runs, from [st] to [st'] in the coupled loop and
    from [sb] to [sb'] in the independent one: the lengths stay, a segment
    that is finite at the end was finite at the start, and was followed by
    the independent weights if it was at the start. *)
Definition follows (st st' sb sb' : state F) : Prop :=
  length (st_w st') = (K + K)%nat /\ length (st_w sb') = K /\
  (fin_vec (seg t K (st_w st')) -> fin_vec (seg t K (st_w st))) /\
  (same_vec (seg t K (st_w st)) (st_w sb) ->
   fin_vec (seg t K (st_w st')) ->
   same_vec (seg t K (st_w st')) (st_w sb')).

Lemma follows_then (st st1 st' sb sb1 sb' : state F) :
  follows st st1 sb sb1 -> follows st1 st' sb1 sb' -> follows st st' sb sb'.
Proof.
  intros (_ & _ & F1 & S1) (L & Lb & F2 & S2). repeat split; auto.
Qed.

Lemma follows_weights (st st' sb sb' s s' b b' : state F) :
  st_w s = st_w st -> st_w s' = st_w st' ->
  st_w b = st_w sb -> st_w b' = st_w sb' ->
  follows st st' sb sb' -> follows s s' b b'.
Proof.
  unfold follows. intros -> -> -> ->. auto.
Qed.

Lemma body_follows (N i : nat) (st sb : state F) :
  wf N -> (i < N)%nat ->
  length (st_w st) = (K + K)%nat -> length (st_w sb) = K ->
  exists st' sb',
    coupled st i = Ok st' /\
    for_each basic (filter (task_is c t) [i]) sb = Ok sb' /\
    follows st st' sb sb'.
Proof.
  intros Hwf Hi Ew Eb.
  pose proof (wf_features Hwf Hi) as Lx.
  pose proof (coupled_body_in_range reg coupling_reg learning_rate st
                Hwf Hi Ew) as Ec.
  pose proof (basic_body_in_range reg learning_rate sb Hwf Hi Eb) as Ebb.
  cbv zeta in Ec, Ebb.
  pose proof (length_padded_gradient reg coupling_reg (nth i X [])
                (nth i c 0) (st_w st) (nth i y 0) Lx Ew) as Lg.
  assert (Ti : task_is c t i = Bool.eqb (nth i c 0 =? 0) t).
  { destruct Hwf as (_ & Lc & _). exact (@task_is_nth _ _ c N i t Lc Hi). }
  eexists. cbn [filter]. rewrite Ti.
  destruct (Bool.eqb (nth i c 0 =? 0) t) eqn:Et.
  - apply Bool.eqb_prop in Et. cbn [for_each]. rewrite Ebb. cbn [bind].
    eexists. split; [exact Ec|]. split; [reflexivity|].
    unfold follows. cbn [st_w]. repeat split.
    + unfold vsum. rewrite length_zip_with, length_scale. lia.
    + unfold vsum.
      repeat (rewrite length_zip_with || rewrite length_scale). lia.
    + intros Hf. now apply (@update_finite (st_w st) _ Ew Lg) in Hf.
    + intros Hs Hf. now apply own_step.
  - apply Bool.eqb_false_iff in Et.
    assert (Et' : (nth i c 0 =? 0) = negb t)
      by (revert Et; destruct (nth i c 0 =? 0), t; cbn; congruence).
    exists sb. split; [exact Ec|]. split; [reflexivity|].
    unfold follows. cbn [st_w]. repeat split; auto.
    + unfold vsum. rewrite length_zip_with, length_scale. lia.
    + intros Hf. now apply (@update_finite (st_w st) _ Ew Lg) in Hf.
    + intros Hs Hf. eapply same_vec_trans; [|exact Hs].
      now apply other_step.
Qed.

Lemma pass_follows (N : nat) (idx : list nat) :
  wf N -> Forall (fun i => (i < N)%nat) idx ->
  forall st sb : state F,
  length (st_w st) = (K + K)%nat -> length (st_w sb) = K ->
  exists st' sb',
    for_each coupled idx st = Ok st' /\
    for_each basic (filter (task_is c t) idx) sb = Ok sb' /\
    follows st st' sb sb'.
Proof.
  intros Hwf Hidx. induction Hidx as [|i idx Hi _ IH]; intros st sb Ew Eb.
  - exists st, sb. cbn. repeat split; auto.
  - destruct (body_follows st sb Hwf Hi Ew Eb) as (st1 & sb1 & E1 & B1 & F1).
    destruct F1 as (L1 & Lb1 & F1).
    destruct (IH st1 sb1 L1 Lb1) as (st' & sb' & E & B & F').
    exists st', sb'. cbn [for_each]. rewrite E1. cbn [bind].
    split; [exact E|]. split.
    + change (i :: idx) with ([i] ++ idx). rewrite filter_app.
      cbn [filter] in *. destruct (task_is c t i); cbn [for_each app] in *.
      * destruct (basic sb i) as [s|]; [|discriminate]. cbn [bind] in *.
        now injection B1 as ->.
      * now injection B1 as ->.
    + eapply follows_then; [|exact F']. repeat split; tauto.
Qed.

Lemma epoch_follows (N : nat) (draw : G -> list nat * G) (report_every : nat)
    (it : nat) (st sb : state F) (g : G) :
  wf N -> in_range draw N -> report_every <> 0%nat ->
  length (st_w st) = (K + K)%nat -> length (st_w sb) = K ->
  exists st' sb' g',
    epoch coupled draw report_every (st, g) it = Ok (st', g') /\
    epoch basic (only_task c t draw) report_every (sb, g) it =
      Ok (sb', g') /\
    follows st st' sb sb'.
Proof.
  intros Hwf Hd Hre Ew Eb. unfold epoch, only_task.
  specialize (Hd g). destruct (draw g) as [idx g']. cbn [fst] in Hd.
  destruct (pass_follows Hwf Hd
              (State (st_w st) (st_grad st) (st_err st) 0 (st_out st))
              (State (st_w sb) (st_grad sb) (st_err sb) 0 (st_out sb))
              Ew Eb) as (st' & sb' & E & B & Fo).
  rewrite E, B. cbn [bind].
  destruct report_every as [|r]; [congruence|]. cbn [py_mod bind].
  destruct (it mod S r =? 0)%nat.
  - eexists _, _, g'. split; [reflexivity|]. split; [reflexivity|].
    eapply follows_weights; [| | | |exact Fo]; reflexivity.
  - exists st', sb', g'. split; [reflexivity|]. split; [reflexivity|].
    eapply follows_weights; [| | | |exact Fo]; reflexivity.
Qed.

Lemma loop_follows (N : nat) (draw : G -> list nat * G) (report_every : nat)
    (iters : list nat) :
  wf N -> in_range draw N -> report_every <> 0%nat ->
  forall (st sb : state F) (g : G),
  length (st_w st) = (K + K)%nat -> length (st_w sb) = K ->
  exists st' sb' g',
    for_each (epoch coupled draw report_every) iters (st, g) =
      Ok (st', g') /\
    for_each (epoch basic (only_task c t draw) report_every) iters (sb, g) =
      Ok (sb', g') /\
    follows st st' sb sb'.
Proof.
  intros Hwf Hd Hre. induction iters as [|it iters IH]; intros st sb g Ew Eb.
  - exists st, sb, g. cbn. repeat split; auto.
  - destruct (epoch_follows it st sb g Hwf Hd Hre Ew Eb)
      as (st1 & sb1 & g1 & E1 & B1 & F1).
    pose proof F1 as (L1 & Lb1 & _).
    destruct (IH st1 sb1 g1 L1 Lb1) as (st' & sb' & g' & E & B & F').
    exists st', sb', g'. cbn [for_each]. rewrite E1, B1. cbn [bind].
    split; [exact E|]. split; [exact B|].
    eapply follows_then; eassumption.
Qed.

Lemma runs_follow (N : nat) (draw : G -> list nat * G)
    (report_every num_iter : nat) (st0 sb0 : state F) (g0 : G) :
  wf N -> in_range draw N -> report_every <> 0%nat ->
  length (st_w st0) = (K + K)%nat -> st_w sb0 = seg t K (st_w st0) ->
  exists st sb g,
    sgd_loop coupled draw report_every num_iter (st0, g0) = Ok (st, g) /\
    sgd_loop basic (only_task c t draw) report_every num_iter (sb0, g0) =
      Ok (sb, g) /\
    (fin_vec (seg t K (st_w st)) -> same_vec (seg t K (st_w st)) (st_w sb)).
Proof.
  intros Hwf Hd Hre Ew Eb.
  assert (Lb : length (st_w sb0) = K) by (rewrite Eb; now apply length_seg).
  destruct (loop_follows (seq 0 num_iter) Hwf Hd Hre st0 sb0 g0 Ew Lb)
    as (st & sb & g & E & B & _ & _ & _ & S).
  exists st, sb, g. split; [exact E|]. split; [exact B|].
  apply S. rewrite Eb. apply same_vec_refl.
Qed.

End Decoupling.

(** ** binary64 satisfies the laws *)

Section Binary64Laws.
Local Open Scope float_scope.

(** The class of a float, with the sign of a zero or of an infinity. *)
Ltac classify x :=
  let E := fresh "E" in
  destruct (Prim2SF x) as [[]|[]| |] eqn:E.

Ltac by_spec :=
  rewrite ?add_spec, ?sub_spec, ?mul_spec;
  repeat match goal with E : Prim2SF _ = _ |- _ => rewrite E; clear E end.

Lemma same64_refl a : same64 a a.
Proof. now left. Qed.

Lemma same64_sym a b : same64 a b -> same64 b a.
Proof. intros [->|[? ?]]; [now left | now right]. Qed.

Lemma same64_trans a b c : same64 a b -> same64 b c -> same64 a c.
Proof.
  intros [->|[Za Zb]] [->|[Zb' Zc]]; try (now left); now right.
Qed.

Lemma same64_zero a : same64 a 0 <-> zero64 a = true.
Proof.
  split.
  - intros [->|[Z _]]; [reflexivity | exact Z].
  - intros Z. right. split; [exact Z | reflexivity].
Qed.

Lemma zero64_spec a : zero64 a = true -> exists s, Prim2SF a = S754_zero s.
Proof.
  unfold zero64. destruct (Prim2SF a) as [s| | |]; try discriminate.
  now exists s.
Qed.

Lemma same64_add a a' b b' :
  same64 a a' -> same64 b b' -> same64 (a + b) (a' + b').
Proof.
  intros [->|[Za Za']] [->|[Zb Zb']]; [now left| | |].
  - apply zero64_spec in Zb, Zb'. destruct Zb as [[] Eb], Zb' as [[] Eb'];
      classify a';
      first [ left; apply Prim2SF_inj; by_spec; reflexivity
            | right; split; unfold zero64; by_spec; reflexivity ].
  - apply zero64_spec in Za, Za'. destruct Za as [[] Ea], Za' as [[] Ea'];
      classify b';
      first [ left; apply Prim2SF_inj; by_spec; reflexivity
            | right; split; unfold zero64; by_spec; reflexivity ].
  - apply zero64_spec in Za, Za', Zb, Zb'.
    destruct Za as [[] Ea], Za' as [[] Ea'], Zb as [[] Eb], Zb' as [[] Eb'];
      right; split; unfold zero64; by_spec; reflexivity.
Qed.

Ltac either :=
  first [ left; apply Prim2SF_inj; by_spec; reflexivity
        | right; split; unfold zero64; by_spec; reflexivity ].

Lemma same64_sub a a' b b' :
  same64 a a' -> same64 b b' -> same64 (a - b) (a' - b').
Proof.
  intros [->|[Za Za']] [->|[Zb Zb']]; [now left| | |].
  - apply zero64_spec in Zb, Zb'. destruct Zb as [[] Eb], Zb' as [[] Eb'];
      classify a'; either.
  - apply zero64_spec in Za, Za'. destruct Za as [[] Ea], Za' as [[] Ea'];
      classify b'; either.
  - apply zero64_spec in Za, Za', Zb, Zb'.
    destruct Za as [[] Ea], Za' as [[] Ea'], Zb as [[] Eb], Zb' as [[] Eb'];
      either.
Qed.

Lemma same64_mul a a' b b' :
  same64 a a' -> same64 b b' -> same64 (a * b) (a' * b').
Proof.
  intros [->|[Za Za']] [->|[Zb Zb']]; [now left| | |].
  - apply zero64_spec in Zb, Zb'. destruct Zb as [[] Eb], Zb' as [[] Eb'];
      destruct (Prim2SF a') as [[]|[]| |[] m e] eqn:Ea; either.
  - apply zero64_spec in Za, Za'. destruct Za as [[] Ea], Za' as [[] Ea'];
      destruct (Prim2SF b') as [[]|[]| |[] m e] eqn:Eb; either.
  - apply zero64_spec in Za, Za', Zb, Zb'.
    destruct Za as [[] Ea], Za' as [[] Ea'], Zb as [[] Eb], Zb' as [[] Eb'];
      either.
Qed.

Lemma finite64_add a b :
  finite64 (a + b) = true -> finite64 a = true /\ finite64 b = true.
Proof.
  unfold finite64. rewrite add_spec.
  destruct (Prim2SF a) as [[]|[]| |], (Prim2SF b) as [[]|[]| |];
    intros E; first [split; reflexivity | discriminate E].
Qed.

Lemma finite64_mul a b :
  finite64 (a * b) = true -> finite64 a = true /\ finite64 b = true.
Proof.
  unfold finite64. rewrite mul_spec.
  destruct (Prim2SF a) as [[]|[]| |], (Prim2SF b) as [[]|[]| |];
    intros E; first [split; reflexivity | discriminate E].
Qed.

Lemma mul64_zero_l a b :
  same64 a 0 -> finite64 (a * b) = true -> same64 (a * b) 0.
Proof.
  rewrite !same64_zero. intros Za. apply zero64_spec in Za.
  destruct Za as [[] Ea]; unfold finite64, zero64; rewrite mul_spec, Ea;
    destruct (Prim2SF b) as [[]|[]| |[] m e]; intros E;
    first [reflexivity | discriminate E].
Qed.

Lemma mul64_zero_r a b :
  same64 b 0 -> finite64 (a * b) = true -> same64 (a * b) 0.
Proof.
  rewrite !same64_zero. intros Zb. apply zero64_spec in Zb.
  destruct Zb as [[] Eb]; unfold finite64, zero64; rewrite mul_spec, Eb;
    destruct (Prim2SF a) as [[]|[]| |[] m e]; intros E;
    first [reflexivity | discriminate E].
Qed.

Lemma add64_zero_r a z : same64 z 0 -> same64 (a + z) a.
Proof.
  rewrite same64_zero. intros Zz. apply zero64_spec in Zz.
  destruct Zz as [[] Ez]; classify a; either.
Qed.

End Binary64Laws.


#[export] Instance binary64_absorbing : Absorbing float := {
  same := same64;
  finite := finite64;
  same_refl := same64_refl;
  same_sym := same64_sym;
  same_trans := same64_trans;
  same_add := same64_add;
  same_sub := same64_sub;
  same_mul := same64_mul;
  finite_add := finite64_add;
  finite_mul := finite64_mul;
  mul_zero_l := mul64_zero_l;
  mul_zero_r := mul64_zero_r;
  add_zero_r := add64_zero_r
}.


(** ** The coupled loop without coupling, on binary64 *)

Section Binary64.
Context {G : Type}.
Local Open Scope scalar_scope.

Variables (K N : nat) (X : list (list float)) (c y : list float).
Variables (reg learning_rate : float).

Local Abbreviation all_finite := (Forall (fun v => finite64 v = true)).

(** C6, as it holds of float64.  With a zero coupling coefficient and any
    visiting order, both the run over all samples and the run over the
    samples of task 0 alone (the same order with the others left out)
    return, and whenever both end with a finite segment 0 the two
    segments are the same entry by entry, up to the sign of a zero. *)
Theorem decoupled_training_binary64 (draw : G -> list nat * G)
    (report_every num_iter : nat) (st0 : state float) (g0 : G) :
  well_formed K X c y N -> in_range draw N -> report_every <> 0%nat ->
  length (st_w st0) = (K + K)%nat ->
  exists (w_full w_task0 : list float) (l_full l_task0 : list float),
    train X c y reg 0 learning_rate draw report_every num_iter st0 g0 =
      Ok (w_full, l_full) /\
    train X c y reg 0 learning_rate (only_task0 c draw) report_every
      num_iter st0 g0 = Ok (w_task0, l_task0) /\
    (all_finite (segment0 K w_full) -> all_finite (segment0 K w_task0) ->
     Forall2 same64 (segment0 K w_task0) (segment0 K w_full)).
Proof.
  intros Hwf Hd Hre Ew.
  pose (sb0 := State (segment0 K (st_w st0)) None None 0 []).
  destruct (@runs_follow float binary64 binary64_absorbing G K X c y reg 0 learning_rate
              (same_refl 0) true N draw report_every num_iter st0 sb0 g0
              Hwf Hd Hre Ew eq_refl)
    as (st & sb & g & E & B & S).
  destruct (@runs_follow float binary64 binary64_absorbing G K X c y reg 0 learning_rate
              (same_refl 0) true N (only_task c true draw) report_every
              num_iter st0 sb0 g0 Hwf (in_range_only_task c true Hd) Hre Ew
              eq_refl)
    as (st' & sb' & g' & E' & B' & S').
  rewrite sgd_loop_ext with (draw' := only_task c true draw) in B'
    by apply only_task_twice.
  rewrite B in B'. injection B' as <- <-.
  exists (st_w st), (st_w st'), (epoch_losses (st_out st)),
    (epoch_losses (st_out st')).
  unfold train. change (only_task0 c draw) with (only_task c true draw).
  rewrite E, E'. cbn [bind]. split; [reflexivity|]. split; [reflexivity|].
  intros Hf Hf'.
  exact (same_vec_trans (S' Hf') (same_vec_sym (S Hf))).
Qed.

(** X9.  With a zero coupling coefficient (of either sign) the coupled
    loop does the work of the two independent loops: on the inputs the
    data model allows the three runs return, with the same generator
    state, and each segment of the coupled weights that is finite at the
    end is the same, up to the sign of a zero, as the weights of the
    independent loop started from that segment and run over the samples of
    its task in the same order. *)
Theorem zero_coupling_follows_independent_loops (coupling_reg : float)
    (draw : G -> list nat * G) (report_every num_iter : nat)
    (st0 : state float) (gr0 gr1 : option (list float))
    (er0 er1 : option float) (ce0 ce1 : float)
    (out0 out1 : list (line float)) (g0 : G) :
  well_formed K X c y N -> in_range draw N -> report_every <> 0%nat ->
  length (st_w st0) = (K + K)%nat -> zero64 coupling_reg = true ->
  exists (st s0 s1 : state float) (g : G),
    sgd_loop (coupled_body X c y reg coupling_reg learning_rate) draw
      report_every num_iter (st0, g0) = Ok (st, g) /\
    sgd_loop (basic_body X y reg learning_rate) (only_task0 c draw)
      report_every num_iter
      (State (segment0 K (st_w st0)) gr0 er0 ce0 out0, g0) = Ok (s0, g) /\
    sgd_loop (basic_body X y reg learning_rate) (only_other c draw)
      report_every num_iter
      (State (segment1 K (st_w st0)) gr1 er1 ce1 out1, g0) = Ok (s1, g) /\
    (all_finite (segment0 K (st_w st)) ->
     Forall2 same64 (segment0 K (st_w st)) (st_w s0)) /\
    (all_finite (segment1 K (st_w st)) ->
     Forall2 same64 (segment1 K (st_w st)) (st_w s1)).
Proof.
  intros Hwf Hd Hre Ew Hz. apply same64_zero in Hz.
  destruct (@runs_follow float binary64 binary64_absorbing G K X c y reg coupling_reg learning_rate
              Hz true N draw report_every num_iter st0
              (State (segment0 K (st_w st0)) gr0 er0 ce0 out0) g0
              Hwf Hd Hre Ew eq_refl)
    as (st & s0 & g & E & B0 & S0).
  destruct (@runs_follow float binary64 binary64_absorbing G K X c y reg coupling_reg learning_rate
              Hz false N draw report_every num_iter st0
              (State (segment1 K (st_w st0)) gr1 er1 ce1 out1) g0
              Hwf Hd Hre Ew eq_refl)
    as (st' & s1 & g' & E' & B1 & S1).
  rewrite E in E'. injection E' as <- <-.
  exists st, s0, s1, g. repeat split; assumption.
Qed.

End Binary64.

(** ** Further concrete runs *)

Section MoreIntegerRuns.
Local Open Scope Z_scope.

Lemma coupled_gradient_keeps_shape_witness :
  length [0; 6; 11] = length [1; 2; 3] /\
  forall learning_rate : Z,
    np_iadd [1; 2; 3] (scale (- learning_rate) [0; 6; 11]) =
    Ok (vsum [1; 2; 3] (scale (- learning_rate) [0; 6; 11])).
Proof.
  exact (@coupled_gradient_keeps_shape Z Z_Arithmetic [1; 2] 1 [1; 2; 3] 5 1 1
           [0; 6; 11] 3 eq_refl).
Defined.



Lemma training_keeps_weight_length_witness :
  length [-2; -2; -2; -2] = length [0; 0; 0; 0].
Proof.
  exact (proj1 (@training_keeps_weight_length Z Z_Arithmetic unit
           [[1; 0; 3]; [0; 1; 2]] [0; 1] [5; 5] 0 0 1 (in_order 0 2)
           10%nat 1%nat
           (State [0; 0; 0; 0] (Some [1; 1; 1; 1]) (Some 2) 0 [])
           (State [-2; -2; -2; -2] (Some [1; 1; 1; 1]) (Some 2) 8
              [Line_index 0; Line_features [1; 0; 3]; Line_task 0;
               Line_index 1; Line_features [0; 1; 2]; Line_task 1;
               Line_report 0 8])
           tt tt) eq_refl).
Defined.

Lemma training_reports_at_multiples_witness :
  reported_iters
    [Line_index 0; Line_features [1; 0; 3]; Line_task 0;
     Line_index 1; Line_features [0; 1; 2]; Line_task 1;
     Line_report 0 8; Line_index 0; Line_features [1; 0; 3]; Line_task 0;
     Line_index 1; Line_features [0; 1; 2]; Line_task 1;
     Line_index 0; Line_features [1; 0; 3]; Line_task 0;
     Line_index 1; Line_features [0; 1; 2]; Line_task 1;
     Line_report 2 8] = [0%nat; 2%nat].
Proof.
  exact (proj1 (@training_reports_at_multiples Z Z_Arithmetic unit
           [[1; 0; 3]; [0; 1; 2]] [0; 1] [5; 5] 0 0 1 (in_order 0 2)
           2%nat 3%nat
           (State [0; 0; 0; 0] (Some [1; 1; 1; 1]) (Some 2) 0 [])
           (State [-6; -6; -6; -6] (Some [1; 1; 1; 1]) (Some 2) 8
              [Line_index 0; Line_features [1; 0; 3]; Line_task 0;
               Line_index 1; Line_features [0; 1; 2]; Line_task 1;
               Line_report 0 8;
               Line_index 0; Line_features [1; 0; 3]; Line_task 0;
               Line_index 1; Line_features [0; 1; 2]; Line_task 1;
               Line_index 0; Line_features [1; 0; 3]; Line_task 0;
               Line_index 1; Line_features [0; 1; 2]; Line_task 1;
               Line_report 2 8])
           tt tt) eq_refl).
Defined.

Lemma sample_draws_shapes :
  randn_shapes 2 (2 + 2) [1; 2] [1; 1]
    [[1; 0]; [0; 1]; [1; 1]; [2; 0]] [1; -1] [0; 2].
Proof.
  repeat split; repeat constructor.
Defined.

Lemma data_cell_even_witness :
  exists d,
    data_cell 2 (2 + 2) 10 3 [1; 2] [1; 1]
      [[1; 0]; [0; 1]; [1; 1]; [2; 0]] [1; -1] [0; 2] = Ok d /\
    d_w_1 d = [11; 12] /\ d_c d = [0; 0; 1; 1] /\ d_y d = [4; -1; 23; 28].
Proof.
  destruct (@data_cell_even Z Z_Arithmetic 2%nat 2%nat 10 3 [1; 2] [1; 1]
              [[1; 0]; [0; 1]; [1; 1]; [2; 0]] [1; -1] [0; 2]
              sample_draws_shapes)
    as (d & E & _).
  exists d. split; [exact E|].
  vm_compute in E. injection E as <-. repeat split.
Defined.

Lemma data_cell_odd_witness :
  data_cell 2 5 10 3 [1; 2] [1; 1]
    [[1; 0]; [0; 1]; [1; 1]; [2; 0]; [0; 0]] [1; -1] [0; 2] =
  Raise ValueError.
Proof.
  refine (@data_cell_odd Z Z_Arithmetic 2%nat 2%nat 10 3 [1; 2] [1; 1]
            [[1; 0]; [0; 1]; [1; 1]; [2; 0]; [0; 0]] [1; -1] [0; 2] _ _).
  - repeat split; repeat constructor.
  - apply le_n.
Defined.

End MoreIntegerRuns.

(** ** Concrete runs on binary64 *)

Section Binary64Runs.
Local Open Scope float_scope.

(** The claim C6 as it is stated, refuted.  One feature, a task-0 sample
    [(1, 1)] and a task-1 sample [(2^600, 1)], zero initial weights,
    [reg = coupling_reg = 0], [learning_rate = 1], three epochs in input
    order.  The weight of task 1 overflows in the second epoch; in the third
    the task-0 sample computes [0 * (w0 - w1)], which is NaN, and segment 0
    of the full run ends as NaN.  The run over the task-0 sample alone ends
    with [w0 = 1]. *)
Lemma decoupling_fails_on_overflow :
  let X := [[1]; [0x1p+600]] in
  let c := [0; 1] in
  let y := [1; 1] in
  let st0 := State [0; 0] None None 0 [] in
  train (G := unit) X c y 0 0 1 (in_order 0 2) 10 3 st0 tt =
    Ok ([nan; nan], [2]) /\
  train (G := unit) X c y 0 0 1 (only_task0 c (in_order 0 2)) 10 3 st0 tt =
    Ok ([1; 0], [1]) /\
  segment0 1 [1; 0] <> segment0 1 [nan; nan] /\
  ~ Forall2 same64 (segment0 1 [1; 0]) (segment0 1 [nan; nan]).
Proof.
  cbv zeta. split; [vm_compute; reflexivity|].
  split; [vm_compute; reflexivity|].
  split.
  - cbn. intros E. apply (f_equal (fun l => Prim2SF (hd 0 l))) in E.
    vm_compute in E. discriminate E.
  - cbn. intros E. inversion E as [|? ? ? ? [E1|[_ Z]] _]; subst.
    + apply (f_equal Prim2SF) in E1. vm_compute in E1. discriminate E1.
    + vm_compute in Z. discriminate Z.
Qed.

(** Also finite runs can differ, in the sign of a zero: from the weights
    [[-0, -1]], visiting the task-1 sample first, the full run ends with
    [w0 = +0] and the run over the task-0 sample alone with [w0 = -0]. *)
Example decoupled_zero_signs_differ :
  let X := [[-1]; [1]] in
  let c := [0; 1] in
  let y := [0; 10] in
  let st0 := State [-0; -1] None None 0 [] in
  let draw := fun g : unit => ([1; 0]%nat, g) in
  train X c y 0 0 1 draw 10 1 st0 tt = Ok ([0; 10], [121]) /\
  train X c y 0 0 1 (only_task0 c draw) 10 1 st0 tt = Ok ([-0; -1], [0]) /\
  Prim2SF 0 <> Prim2SF (-0).
Proof.
  cbv zeta. split; [vm_compute; reflexivity|].
  split; [vm_compute; reflexivity|].
  vm_compute. discriminate.
Qed.

Lemma coupled_gradient_extends_basic_witness :
  basic_gradient [1; 2] [3; 5] 5 0.5 = Ok ([9.5; 18.5], 8) /\
  exists grad,
    coupled_gradient [1; 2] 1 [1; 2; 3; 5] 5 0.5 0.25 = Ok (grad, 8) /\
    length grad = 4%nat /\
    skipn 2 grad = [10; 19.25].
Proof.
  split; [vm_compute; reflexivity|].
  exact (@coupled_gradient_extends_basic float binary64 2%nat [1; 2] 1
           [1; 2; 3; 5] 5 0.5 0.25 eq_refl).
Defined.

Lemma float_data_well_formed :
  well_formed 1 [[1]; [2]] [0; 1] [3; 4] 2.
Proof.
  repeat split; repeat constructor.
Defined.

Lemma float_order_in_range : in_range (in_order (G := unit) 0 2) 2.
Proof.
  intros g. repeat constructor.
Defined.

Lemma decoupled_training_binary64_witness :
  exists (w_full w_task0 : list float) (l_full l_task0 : list float),
    train (G := unit) [[1]; [2]] [0; 1] [3; 4] 0.5 0 0.25 (in_order 0 2) 2 3
      (State [0; 0] None None 0 []) tt = Ok (w_full, l_full) /\
    train (G := unit) [[1]; [2]] [0; 1] [3; 4] 0.5 0 0.25
      (only_task0 [0; 1] (in_order 0 2)) 2 3
      (State [0; 0] None None 0 []) tt = Ok (w_task0, l_task0) /\
    w_full = [1.51171875; 1.78125] /\
    Forall2 same64 (segment0 1 w_task0) (segment0 1 w_full).
Proof.
  destruct (@decoupled_training_binary64 unit 1%nat 2%nat
              [[1]; [2]] [0; 1] [3; 4] 0.5 0.25 (in_order 0 2) 2%nat 3%nat
              (State [0; 0] None None 0 []) tt
              float_data_well_formed float_order_in_range
              ltac:(discriminate) eq_refl)
    as (wf & w0 & lf & l0 & Ef & E0 & S).
  exists wf, w0, lf, l0. split; [exact Ef|]. split; [exact E0|].
  vm_compute in Ef. vm_compute in E0.
  injection Ef as <- _. injection E0 as <- _.
  split; [reflexivity|]. apply S; repeat constructor.
Defined.

Lemma zero_coupling_follows_independent_loops_witness :
  exists (st s0 s1 : state float) (g : unit),
    sgd_loop (coupled_body [[1]; [2]] [0; 1] [3; 4] 0.5 (-0) 0.25)
      (in_order 0 2) 2 3 (State [0; 0] None None 0 [], tt) = Ok (st, g) /\
    sgd_loop (basic_body [[1]; [2]] [3; 4] 0.5 0.25)
      (only_task0 [0; 1] (in_order 0 2)) 2 3
      (State [0] None None 0 [], tt) = Ok (s0, g) /\
    sgd_loop (basic_body [[1]; [2]] [3; 4] 0.5 0.25)
      (only_other [0; 1] (in_order 0 2)) 2 3
      (State [0] None None 0 [], tt) = Ok (s1, g) /\
    st_w st = [1.51171875; 1.78125] /\
    Forall2 same64 (segment0 1 (st_w st)) (st_w s0) /\
    Forall2 same64 (segment1 1 (st_w st)) (st_w s1).
Proof.
  destruct (@zero_coupling_follows_independent_loops unit 1%nat 2%nat
              [[1]; [2]] [0; 1] [3; 4] 0.5 0.25 (-0) (in_order 0 2)
              2%nat 3%nat (State [0; 0] None None 0 [])
              None None None None 0 0 [] [] tt
              float_data_well_formed float_order_in_range
              ltac:(discriminate) eq_refl eq_refl)
    as (st & s0 & s1 & g & E & B0 & B1 & S0 & S1).
  exists st, s0, s1, g. split; [exact E|]. split; [exact B0|].
  split; [exact B1|].
  vm_compute in E. injection E as <- _.
  split; [reflexivity|]. split; [apply S0 | apply S1]; repeat constructor.
Defined.

End Binary64Runs.
